(** * Dependency analysis of SQL batches

    A shallow embedding of [sql_converter/dependency_analyzer.py]: the
    statement splitters, the table extractor, the dependency graph builder,
    the topological sorter and the two batch analysis paths, followed by the
    properties established about them.

    Conventions of the model.
    - A Python [str] is a [string]; characters are [ascii], so the case and
      white-space functions below are those of Python on ASCII text.
    - A Python [set] of names is a [gset string].  Python leaves the
      iteration order of a set unspecified; where the code iterates over a
      set the model iterates over [elements].
    - A Python [dict] iterates in insertion order: the dependency graph is
      an association list, the in-degree table a [gmap].
    - The SQL parser (sqlglot) is not part of the repository: it is a
      parameter of the model, see [Parser].
    - Logging is a write-only side channel.  The warnings of the sorter are
      kept (they are how a cycle is signalled); progress messages and the
      wall-clock field [analysis_time_seconds] are left out. *)

From Stdlib Require Import ZArith NArith Ascii Lia.
From stdpp Require Import base list strings gmap.

(** ** Python string operations *)

Module PyStr.

(** [c.isspace()], also what [\s] matches in a [str] pattern. *)
Definition isspace (c : ascii) : bool :=
  match c with
  | "009" | "010" | "011" | "012" | "013"
  | "028" | "029" | "030" | "031" | " " => true
  | _ => false
  end%char.

Definition isdigit (c : ascii) : bool :=
  let n := N_of_ascii c in ((48 <=? n) && (n <=? 57))%N.

Definition lower_char (c : ascii) : ascii :=
  let n := N_of_ascii c in
  if ((65 <=? n) && (n <=? 90))%N then ascii_of_N (n + 32) else c.

(** [s.lower()] *)
Fixpoint lower (s : string) : string :=
  match s with
  | "" => ""
  | String c rest => String (lower_char c) (lower rest)
  end.

Fixpoint lstrip (s : string) : string :=
  match s with
  | "" => ""
  | String c rest => if isspace c then lstrip rest else s
  end.

Definition rstrip (s : string) : string :=
  String.rev (lstrip (String.rev s)).

(** [s.strip()] *)
Definition strip (s : string) : string := rstrip (lstrip s).

(** [bool(s.strip())] *)
Definition nonblank (s : string) : bool :=
  match strip s with "" => false | _ => true end.

(** [s.find(c)], with [None] for [-1]. *)
Fixpoint find (c : ascii) (s : string) : option nat :=
  match s with
  | "" => None
  | String c' rest => if decide (c' = c) then Some 0 else S <$> find c rest
  end.

(** [s[n:]] *)
Fixpoint drop (n : nat) (s : string) : string :=
  match n, s with
  | S n', String _ rest => drop n' rest
  | _, _ => s
  end.

(** [s[:n]] *)
Definition take (n : nat) (s : string) : string := String.substring 0 n s.

(** [s.count(c)] *)
Fixpoint count (c : ascii) (s : string) : nat :=
  match s with
  | "" => 0
  | String c' rest => (if decide (c' = c) then 1 else 0) + count c rest
  end.

(** [s + c] *)
Definition snoc (s : string) (c : ascii) : string := s +:+ String c "".

(** Does [s] start with the lower-case word [word], ignoring case?  The
    text after the word is returned. *)
Fixpoint after_word (word s : string) : option string :=
  match word, s with
  | "", _ => Some s
  | String w word', String c rest =>
      if decide (lower_char c = w) then after_word word' rest else None
  | String _ _, "" => None
  end.

(** [s * n] *)
Fixpoint copies (n : nat) (s : string) : string :=
  match n with
  | O => ""
  | S n' => s +:+ copies n' s
  end.

(** [', '.join(l)] for a separator [sep]. *)
Fixpoint join (sep : string) (l : list string) : string :=
  match l with
  | [] => ""
  | [x] => x
  | x :: rest => x +:+ sep +:+ join sep rest
  end.

End PyStr.

(** ** Dependency graphs

    The graph is a Python [dict] from a table name to the [set] of tables it
    depends on.  A [dict] iterates in insertion order, so it is modelled as
    an association list; the value sets are [gset string]. *)

Definition Graph : Type := list (string * gset string).

Definition nodes (graph : Graph) : list string := graph.*1.

(** [graph[k]] for a key that is present (the sorter only reads keys it
    iterates over). *)
Fixpoint graph_get (graph : Graph) (k : string) : gset string :=
  match graph with
  | [] => ∅
  | (k', v) :: rest => if decide (k' = k) then v else graph_get rest k
  end.

(** [graph[k] = v]: in place for an existing key, appended for a new one. *)
Fixpoint graph_set (graph : Graph) (k : string) (v : gset string) : Graph :=
  match graph with
  | [] => [(k, v)]
  | (k', v') :: rest =>
      if decide (k' = k) then (k', v) :: rest else (k', v') :: graph_set rest k v
  end.

Definition graph_mem (graph : Graph) (k : string) : bool :=
  bool_decide (k ∈ nodes graph).

(** ** Topological sorter ([_topological_sort]) *)

Module Sorter.

(** [in_degree = {node: 0 for node in graph}] *)
Definition in_degree_zero (graph : Graph) : gmap string Z :=
  foldl (λ deg node, <[node := 0%Z]> deg) ∅ (nodes graph).

(** [if dependent in in_degree: in_degree[dependent] += 1] *)
Definition count_edge (deg : gmap string Z) (dependent : string) : gmap string Z :=
  match deg !! dependent with
  | Some k => <[dependent := (k + 1)%Z]> deg
  | None => deg
  end.

(** The two nested [for] loops that fill [in_degree]. *)
Definition in_degree_of (graph : Graph) : gmap string Z :=
  foldl (λ deg node, foldl count_edge deg (elements (graph_get graph node)))
        (in_degree_zero graph) (nodes graph).

(** [deque([node for node in in_degree if in_degree[node] == 0])]; the keys
    of [in_degree] are those of the graph, in the same order. *)
Definition initial_queue (graph : Graph) (deg : gmap string Z) : list string :=
  filter (λ node, deg !!! node = 0%Z) (nodes graph).

(** One round of the inner [for dependent in list(graph.keys())] loop. *)
Definition release (node : string)
    (st : Graph * gmap string Z * list string) (dependent : string)
    : Graph * gmap string Z * list string :=
  let '(graph, deg, queue) := st in
  if decide (node ∈ graph_get graph dependent) then
    let graph' := graph_set graph dependent (graph_get graph dependent ∖ {[node]}) in
    let d := (deg !!! dependent - 1)%Z in
    (graph', <[dependent := d]> deg,
     if decide (d = 0%Z) then queue ++ [dependent] else queue)
  else st.

(** [while queue: ...]; [fuel] bounds the number of iterations. *)
Fixpoint process (fuel : nat) (graph : Graph) (deg : gmap string Z)
    (queue result : list string) : option (Graph * list string) :=
  match queue with
  | [] => Some (graph, result)
  | node :: queue' =>
      match fuel with
      | O => None
      | S fuel' =>
          let '(graph', deg', queue'') :=
            foldl (release node) (graph, deg, queue') (nodes graph) in
          process fuel' graph' deg' queue'' (result ++ [node])
      end
  end.

(** Every iteration dequeues one node, and a node is enqueued either at
    the start or when an edge is removed. *)
Definition edge_count (graph : Graph) : nat :=
  sum_list (size <$> graph.*2).

Definition sort_fuel (graph : Graph) : nat :=
  length graph + edge_count graph.

Definition cycle_warning : string :=
  "Circular dependencies detected in SQL queries".

Definition cycle_tables_warning (cycles : list string) : string :=
  "Tables in cycles: " +:+ PyStr.join ", " cycles.

End Sorter.

(** The sorter returns the order together with the warnings it logged. *)
Definition _topological_sort (graph : Graph) : option (list string * list string) :=
  let deg := Sorter.in_degree_of graph in
  match Sorter.process (Sorter.sort_fuel graph) graph deg
          (Sorter.initial_queue graph deg) [] with
  | None => None
  | Some (graph', result) =>
      if decide (length result ≠ length graph') then
        let cycles := filter (λ node, node ∉ result) (nodes graph') in
        Some (result ++ cycles,
              [Sorter.cycle_warning; Sorter.cycle_tables_warning cycles])
      else Some (result, [])
  end.

(** ** Statement splitters *)

Module Splitter.

Definition squote : ascii := "039"%char.
Definition dquote : ascii := "034"%char.
Definition newline : ascii := "010"%char.

(** Is [char] one of the two quote characters? *)
Definition is_quote (char : ascii) : bool :=
  bool_decide (char = squote) || bool_decide (char = dquote).

(** [re.sub(r'--.*?$', '', sql_batch, flags=re.MULTILINE)]: every [--] is
    removed together with the rest of its line; the line break stays. *)
Fixpoint strip_line_comments (in_comment : bool) (s : string) : string :=
  match s with
  | "" => ""
  | String c rest =>
      if in_comment then
        if decide (c = newline) then String c (strip_line_comments false rest)
        else strip_line_comments true rest
      else
        match c, rest with
        | "-"%char, String "-"%char _ => strip_line_comments true rest
        | _, _ => String c (strip_line_comments false rest)
        end
  end.

(** Number of characters up to and including the first [*/] of [s]. *)
Fixpoint close_offset (s : string) : option nat :=
  match s with
  | "" => None
  | String c rest =>
      match c, rest with
      | "*"%char, String "/"%char _ => Some 2
      | _, _ => S <$> close_offset rest
      end
  end.

(** [re.sub(r'/\*.*?\*/', '', sql_batch, flags=re.DOTALL)]: a [/*] is
    removed up to the first [*/] after it; without one it stays.  [skip]
    counts the characters of the current match still to be dropped. *)
Fixpoint strip_block_comments (skip : nat) (s : string) : string :=
  match s with
  | "" => ""
  | String c rest =>
      match skip with
      | S skip' => strip_block_comments skip' rest
      | O =>
          match c, rest with
          | "/"%char, String "*"%char body =>
              match close_offset body with
              | Some n => strip_block_comments (S n) rest
              | None => String c (strip_block_comments 0 rest)
              end
          | _, _ => String c (strip_block_comments 0 rest)
          end
      end
  end.

Definition strip_comments (sql_batch : string) : string :=
  strip_block_comments 0 (strip_line_comments false sql_batch).

(** The local variables of the scan loop of [_split_with_regex]. *)
Record ScanState : Type := mkScan {
  queries : list string;
  current_query : string;
  in_quotes : bool;
  quote_char : option ascii;
  paren_level : nat
}.

Definition scan_start : ScanState := mkScan [] "" false None 0.

(** [if current_query.strip(): queries.append(current_query.strip())] *)
Definition flush (queries : list string) (current_query : string) : list string :=
  if PyStr.nonblank current_query then queries ++ [PyStr.strip current_query]
  else queries.

(** The body of [for char in sql_batch]. *)
Definition scan_char (st : ScanState) (char : ascii) : ScanState :=
  let current := PyStr.snoc (current_query st) char in
  if is_quote char then
    if negb (in_quotes st) then
      mkScan (queries st) current true (Some char) (paren_level st)
    else if decide (Some char = quote_char st) then
      mkScan (queries st) current false None (paren_level st)
    else mkScan (queries st) current (in_quotes st) (quote_char st) (paren_level st)
  else if bool_decide (char = "("%char) && negb (in_quotes st) then
    mkScan (queries st) current (in_quotes st) (quote_char st) (S (paren_level st))
  else if bool_decide (char = ")"%char) && negb (in_quotes st) then
    (* max(0, paren_level - 1) *)
    mkScan (queries st) current (in_quotes st) (quote_char st) (Nat.pred (paren_level st))
  else if bool_decide (char = ";"%char) && negb (in_quotes st)
          && bool_decide (paren_level st = 0) then
    mkScan (flush (queries st) current) "" (in_quotes st) (quote_char st) (paren_level st)
  else mkScan (queries st) current (in_quotes st) (quote_char st) (paren_level st).

Fixpoint scan (st : ScanState) (s : string) : ScanState :=
  match s with
  | "" => st
  | String char rest => scan (scan_char st char) rest
  end.

(** The statements of a state once the input has ended. *)
Definition finish (st : ScanState) : list string :=
  flush (queries st) (current_query st).

Definition _split_with_regex (sql_batch : string) : list string :=
  finish (scan scan_start (strip_comments sql_batch)).

(** The local variables of the loop of [_is_valid_query_boundary]. *)
Record BoundaryState : Type := mkBoundary {
  quote_count : nat;
  b_paren_level : nat;
  in_comment : bool;
  in_block_comment : bool
}.

(** One iteration, for [char = query[i]]; [next] is [query[i+1]] when
    [i+1 < len(query)]. *)
Definition boundary_char (st : BoundaryState) (char : ascii) (next : option ascii)
    : BoundaryState :=
  if in_comment st then
    if decide (char = newline) then
      mkBoundary (quote_count st) (b_paren_level st) false (in_block_comment st)
    else st
  else if in_block_comment st then
    if bool_decide (char = "*"%char) && bool_decide (next = Some "/"%char) then
      mkBoundary (quote_count st) (b_paren_level st) (in_comment st) false
    else st
  else if bool_decide (char = "-"%char) && bool_decide (next = Some "-"%char) then
    mkBoundary (quote_count st) (b_paren_level st) true (in_block_comment st)
  else if bool_decide (char = "/"%char) && bool_decide (next = Some "*"%char) then
    mkBoundary (quote_count st) (b_paren_level st) (in_comment st) true
  else if is_quote char then
    mkBoundary (S (quote_count st)) (b_paren_level st) (in_comment st) (in_block_comment st)
  else if decide (char = "("%char) then
    mkBoundary (quote_count st) (S (b_paren_level st)) (in_comment st) (in_block_comment st)
  else if decide (char = ")"%char) then
    mkBoundary (quote_count st) (Nat.pred (b_paren_level st)) (in_comment st) (in_block_comment st)
  else st.

Fixpoint boundary_scan (st : BoundaryState) (query : string) : BoundaryState :=
  match query with
  | "" => st
  | String char rest =>
      let next := match rest with String n _ => Some n | "" => None end in
      boundary_scan (boundary_char st char next) rest
  end.

Definition _is_valid_query_boundary (query : string) : bool :=
  let st := boundary_scan (mkBoundary 0 0 false false) query in
  Nat.even (quote_count st) && bool_decide (b_paren_level st = 0).

(** [[sql_batch[i:i+chunk_size] for i in range(0, len(sql_batch), chunk_size)]] *)
Definition chunks_of (size : nat) (sql_batch : string) : list string :=
  let n := String.length sql_batch in
  (λ k, String.substring (k * size) size sql_batch)
    <$> seq 0 ((n + size - 1) `div` size).

(** The inner [while True] loop: cut the buffer after its first semicolon
    until none is left.  Every round shortens the buffer, so a [fuel]
    above its length is never used up. *)
Fixpoint drain (fuel : nat) (buffer : string) (queries : list string)
    : string * list string :=
  match fuel with
  | O => (buffer, queries)
  | S fuel' =>
      match PyStr.find ";"%char buffer with
      | None => (buffer, queries)
      | Some semicolon_pos =>
          let query := PyStr.take (semicolon_pos + 1) buffer in
          let buffer' := PyStr.drop (semicolon_pos + 1) buffer in
          let queries' :=
            if _is_valid_query_boundary query then flush queries query
            else queries in
          drain fuel' buffer' queries'
      end
  end.

(** The body of [for chunk in chunks]. *)
Definition feed (st : string * list string) (chunk : string) : string * list string :=
  let '(buffer, queries) := st in
  let buffer' := buffer +:+ chunk in
  drain (S (String.length buffer')) buffer' queries.

Definition stream_split (size : nat) (sql_batch : string) : list string :=
  let '(buffer, queries) := foldl feed ("", []) (chunks_of size sql_batch) in
  flush queries buffer.

(** [chunk_size = 10000] *)
Definition chunk_size : nat := 100 * 100.

Definition _stream_split_queries (sql_batch : string) : list string :=
  stream_split chunk_size sql_batch.

(** [len(sql_batch.split(';'))] *)
Definition quick_count (sql_batch : string) : nat :=
  S (PyStr.count ";"%char sql_batch).

Definition _process_large_batch (sql_batch : string) : list string :=
  if decide (1000 < quick_count sql_batch) then _stream_split_queries sql_batch
  else _split_with_regex sql_batch.

(** [re.sub(r'NOLOGGING', '', s, flags=re.IGNORECASE)] *)
Fixpoint remove_nologging (skip : nat) (s : string) : string :=
  match s with
  | "" => ""
  | String c rest =>
      match skip with
      | S skip' => remove_nologging skip' rest
      | O =>
          match PyStr.after_word "nologging" s with
          | Some _ => remove_nologging 8 rest
          | None => String c (remove_nologging 0 rest)
          end
      end
  end.

Fixpoint leading_digits (s : string) : nat :=
  match s with
  | "" => 0
  | String c rest => if PyStr.isdigit c then S (leading_digits rest) else 0
  end.

(** [re.sub(r'PARALLEL \d+', '', s, flags=re.IGNORECASE)] *)
Fixpoint remove_parallel (skip : nat) (s : string) : string :=
  match s with
  | "" => ""
  | String c rest =>
      match skip with
      | S skip' => remove_parallel skip' rest
      | O =>
          match PyStr.after_word "parallel " s with
          | Some digits =>
              match leading_digits digits with
              | O => String c (remove_parallel 0 rest)
              | S d => remove_parallel (8 + S d) rest
              end
          | None => String c (remove_parallel 0 rest)
          end
      end
  end.

(** [re.search(r'^\s*CREATE\s', query, re.IGNORECASE)] *)
Definition is_create_statement (query : string) : bool :=
  match PyStr.after_word "create" (PyStr.lstrip query) with
  | Some (String c _) => PyStr.isspace c
  | _ => false
  end.

End Splitter.

(** ** The SQL parser

    [sqlglot] is an external library.  The analyzer uses it through
    [sqlglot.parse], [str] of a parsed statement, [find_all(CTE)],
    [find_all(Table)], [isinstance(_, Create)] and the [name], [db] and
    [alias] attributes; the records below carry exactly that. *)

Record Table : Type := mkTable {
  table_name : string;           (* [table.name] *)
  table_db : string              (* [table.db], empty when there is none *)
}.

Record Expression : Type := mkExpression {
  (** [cte.alias.name] of the nodes of [find_all(CTE)] that pass the two
      [hasattr] tests of the extractor, in the order they are found *)
  expr_ctes : list string;
  (** [expression.this] when the statement is a [Create] with a target *)
  expr_create : option Table;
  (** the nodes of [find_all(Table)] *)
  expr_tables : list Table
}.

Global Instance Table_eq_dec : EqDecision Table.
Proof. solve_decision. Defined.

Global Instance Expression_eq_dec : EqDecision Expression.
Proof. solve_decision. Defined.

Record Parser : Type := mkParser {
  (** [sqlglot.parse(text, read=dialect)]: the parsed statements of the
      text, or [None] when the call raises *)
  parse : string → option (list Expression);
  (** [str(expression)] *)
  render : Expression → string
}.

(** The [dict] put in [query_details] for one statement. *)
Record QueryDetail : Type := mkDetail {
  query : string;
  creates : list string;
  references : list string
}.

(** The [dict] returned by [analyze_batch]. *)
Record BatchResult : Type := mkResult {
  table_creation_order : list string;
  external_dependencies : list string;
  query_details : list QueryDetail;
  total_queries : nat;
  total_tables : nat;
  created_tables : option nat;   (* large-batch path only *)
  note : option string           (* large-batch path only *)
}.

Definition large_batch_note : string :=
  "Large batch optimization applied: detailed query analysis limited to CREATE statements and critical dependencies.".

Section Analyzer.

Variable P : Parser.

(** [db.name] or [name], in lower case. *)
Definition qualified_name (table : Table) : string :=
  if decide (table_db table = "") then PyStr.lower (table_name table)
  else PyStr.lower (table_db table) +:+ "." +:+ PyStr.lower (table_name table).

Definition _get_table_references (expression : Expression) : gset string :=
  list_to_set (qualified_name <$> expr_tables expression).

(** The body of [for expression in expressions], on
    [(created_tables, referenced_tables, cte_tables)]. *)
Definition extract_expression
    (acc : gset string * gset string * gset string) (expression : Expression)
    : gset string * gset string * gset string :=
  let '(created_tables, referenced_tables, cte_tables) := acc in
  let cte_tables' := cte_tables ∪ list_to_set (PyStr.lower <$> expr_ctes expression) in
  let created_tables' :=
    match expr_create expression with
    | Some table => created_tables ∪ {[qualified_name table]}
    | None => created_tables
    end in
  let tables := _get_table_references expression in
  let tables' : gset string :=
    set_map PyStr.lower (filter (λ t, PyStr.lower t ∉ cte_tables') tables) in
  (created_tables', referenced_tables ∪ tables', cte_tables').

(** When [sqlglot.parse] raises, the handler only logs and the two sets
    are returned as they are: empty. *)
Definition _extract_tables_from_query (query : string) : gset string * gset string :=
  match parse P query with
  | None => (∅, ∅)
  | Some expressions =>
      let '(created_tables, referenced_tables, _) :=
        foldl extract_expression (∅, ∅, ∅) expressions in
      (created_tables, referenced_tables ∖ created_tables)
  end.

(** [graph[created_table].add(ref_table)] on a [defaultdict(set)] *)
Definition add_edge (graph : Graph) (created_table ref_table : string) : Graph :=
  graph_set graph created_table (graph_get graph created_table ∪ {[ref_table]}).

(** The body of the first loop of [_build_dependency_graph], on
    [(graph, all_tables)]. *)
Definition build_query (st : Graph * gset string) (query : string)
    : Graph * gset string :=
  let '(graph, all_tables) := st in
  let '(created, referenced) := _extract_tables_from_query query in
  (foldl (λ g created_table,
            foldl (λ g' ref_table, add_edge g' created_table ref_table)
                  g (elements referenced))
         graph (elements created),
   all_tables ∪ created ∪ referenced).

(** [if table not in graph: graph[table] = set()] *)
Definition add_standalone (graph : Graph) (table : string) : Graph :=
  if graph_mem graph table then graph else graph_set graph table ∅.

Definition _build_dependency_graph (queries : list string) : Graph :=
  let '(graph, all_tables) := foldl build_query ([], ∅) queries in
  foldl add_standalone graph (elements all_tables).

Definition analyze_queries (queries : list string) : option (list string) :=
  fst <$> _topological_sort (_build_dependency_graph queries).

(** The two branches of [split_batch_queries]; [Exception] from the parser
    sends the batch to the character scan. *)
Definition split_batch_queries (sql_batch : string) : list string :=
  if (1000000 <? N.of_nat (String.length sql_batch))%N then
    Splitter._process_large_batch
      (Splitter.remove_parallel 0 (Splitter.remove_nologging 0 sql_batch))
  else
    match parse P sql_batch with
    | Some parsed_queries =>
        let queries := render P <$> parsed_queries in
        match queries with
        | _ :: _ => queries
        | [] =>
            if PyStr.nonblank sql_batch then Splitter._split_with_regex sql_batch
            else []
        end
    | None => Splitter._split_with_regex sql_batch
    end.

(** The body of the extraction loop of the regular branch of
    [analyze_batch], on [(query_tables, all_created, all_referenced)].
    Cutting the statements in chunks of 100 only changes when the progress
    message is logged. *)
Definition standard_query
    (st : list QueryDetail * gset string * gset string) (q : string)
    : list QueryDetail * gset string * gset string :=
  let '(query_tables, all_created_tables, all_referenced_tables) := st in
  let '(created, referenced) := _extract_tables_from_query q in
  (query_tables ++ [mkDetail q (elements created) (elements referenced)],
   all_created_tables ∪ created, all_referenced_tables ∪ referenced).

(** The regular branch of [analyze_batch], from the split statements on. *)
Definition analyze_standard (queries : list string) : option BatchResult :=
  let '(query_tables, all_created_tables, all_referenced_tables) :=
    foldl standard_query ([], ∅, ∅) queries in
  let external : gset string := all_referenced_tables ∖ all_created_tables in
  table_order ← analyze_queries queries;
  Some (mkResult table_order (elements external) query_tables
          (length queries) (size all_created_tables + size external) None None).

(** First pass of [_analyze_large_batch]: the CREATE statements. *)
Definition large_create
    (st : list QueryDetail * gset string) (q : string)
    : list QueryDetail * gset string :=
  let '(create_details, all_created_tables) := st in
  let '(created, referenced) := _extract_tables_from_query q in
  (create_details ++ [mkDetail q (elements created) (elements referenced)],
   all_created_tables ∪ created).

(** Second pass: the other statements; details are kept for 1000 of them. *)
Definition large_other
    (st : list QueryDetail * gset string) (q : string)
    : list QueryDetail * gset string :=
  let '(other_details, all_referenced_tables) := st in
  let '(_, referenced) := _extract_tables_from_query q in
  (if decide (length other_details < 1000)
   then other_details ++ [mkDetail q [] (elements referenced)]
   else other_details,
   all_referenced_tables ∪ referenced).

(** [critical_queries]: the CREATE statements, then those of the first
    1000 other statements that reference a created table. *)
Definition critical_queries (create_statements other_statements : list string)
    (all_created_tables : gset string) : list string :=
  create_statements ++
  filter (λ q, (_extract_tables_from_query q).2 ∩ all_created_tables ≠ ∅)
         (take 1000 other_statements).

Definition _analyze_large_batch (queries : list string) : option BatchResult :=
  let create_statements := filter (λ q, Splitter.is_create_statement q = true) queries in
  let other_statements := filter (λ q, Splitter.is_create_statement q ≠ true) queries in
  let '(create_details, all_created_tables) :=
    foldl large_create ([], ∅) create_statements in
  let '(other_details, all_referenced_tables) :=
    foldl large_other ([], ∅) other_statements in
  let query_tables :=
    create_details ++ take (1000 `min` length other_details) other_details in
  let external : gset string := all_referenced_tables ∖ all_created_tables in
  table_order ← analyze_queries
    (critical_queries create_statements other_statements all_created_tables);
  Some (mkResult table_order (elements external) query_tables
          (length queries) (size all_created_tables + size external)
          (Some (size all_created_tables)) (Some large_batch_note)).

Definition analyze_batch (sql_batch : string) : option BatchResult :=
  let queries := split_batch_queries sql_batch in
  if decide (1000 < length queries) then _analyze_large_batch queries
  else analyze_standard queries.

End Analyzer.

(** ** A small parser

    A parser that knows a handful of statements and raises on everything
    else: the text is cut at every semicolon, blank pieces are skipped and
    each remaining piece has to be one of the known statements.  [str] gives
    a statement back as it is listed. *)

Module Demo.

Definition tbl (name : string) : Table := mkTable name "".

Definition statements : list (string * Expression) :=
  [ ("CREATE TABLE b AS SELECT * FROM a",
     mkExpression [] (Some (tbl "b")) [tbl "b"; tbl "a"]);
    ("CREATE TABLE c AS SELECT * FROM b",
     mkExpression [] (Some (tbl "c")) [tbl "c"; tbl "b"]);
    ("CREATE TABLE a AS SELECT * FROM a, b",
     mkExpression [] (Some (tbl "a")) [tbl "a"; tbl "a"; tbl "b"]);
    ("WITH t AS (SELECT 1) SELECT * FROM t, real_table",
     mkExpression ["t"] None [tbl "t"; tbl "real_table"]);
    ("SELECT * FROM x", mkExpression [] None [tbl "x"]);
    ("SELECT * FROM b", mkExpression [] None [tbl "b"]) ].

Fixpoint pieces (current : string) (text : string) : list string :=
  match text with
  | "" => [current]
  | String c rest =>
      if decide (c = ";"%char) then current :: pieces "" rest
      else pieces (PyStr.snoc current c) rest
  end.

Definition parse_statement (text : string) : option Expression :=
  (λ found : nat * (string * Expression), found.2.2)
    <$> list_find (λ known, known.1 = text) statements.

Definition parse_text (text : string) : option (list Expression) :=
  mapM parse_statement
    (filter (λ piece, piece ≠ "") (PyStr.strip <$> pieces "" text)).

Definition render_expression (e : Expression) : string :=
  from_option (λ found : nat * (string * Expression), found.2.1) "" (list_find (λ known, known.2 = e) statements).

Definition parser : Parser := mkParser parse_text render_expression.

End Demo.

(** The parsed forms of the two statements of the end-to-end scenario. *)
Definition create_b_from_a : Expression :=
  mkExpression [] (Some (mkTable "b" "")) [mkTable "b" ""; mkTable "a" ""].

Definition create_c_from_b : Expression :=
  mkExpression [] (Some (mkTable "c" "")) [mkTable "c" ""; mkTable "b" ""].

(** A batch of 1101 statements, the first with a semicolon inside a quoted
    literal; it is longer than one chunk of the streaming splitter. *)
Definition quoted_then_selects : string :=
  "INSERT INTO t VALUES ('a;b');" +:+ PyStr.copies 1100 " SELECT 1;".

(** * Properties *)

(** ** Lists *)

Section ListFacts.

Context {A : Type} (P : A → Prop) `{!∀ x, Decision (P x)}.

Lemma filter_all_length (l : list A) :
  length (filter P l) = length l → filter P l = l.
Proof.
  induction l as [|x l IH]; [done|]. rewrite filter_cons.
  pose proof (length_filter P l). case_decide; simpl; intros Hlen; [|lia].
  f_equal. apply IH. lia.
Qed.

Lemma filter_all (l : list A) :
  (∀ x, x ∈ l → P x) → filter P l = l.
Proof.
  induction l as [|x l IH]; intros Hall; [done|].
  rewrite filter_cons, decide_True by (apply Hall; left).
  f_equal. apply IH. intros y Hy. apply Hall. by right.
Qed.

Lemma filter_none (l : list A) :
  (∀ x, x ∈ l → ¬ P x) → filter P l = [].
Proof.
  induction l as [|x l IH]; intros Hnone; [done|].
  rewrite filter_cons, decide_False by (apply Hnone; left).
  apply IH. intros y Hy. apply Hnone. by right.
Qed.

Lemma filter_not_elem_of_filter `{!EqDecision A} (l : list A) :
  filter (λ x, x ∉ filter P l) l = filter (λ x, ¬ P x) l.
Proof.
  assert (∀ k : list A, (∀ x, x ∈ k → x ∈ l) →
            filter (λ x, x ∉ filter P l) k = filter (λ x, ¬ P x) k) as Hgen.
  { induction k as [|x k IH]; intros Hsub; [done|].
    rewrite !filter_cons, IH by (intros y Hy; apply Hsub; by right).
    apply decide_ext. rewrite list_elem_of_filter.
    assert (x ∈ l) by (apply Hsub; left). tauto. }
  by apply Hgen.
Qed.

End ListFacts.

(** ** The topological sorter *)

Section SorterFacts.

Import Sorter.

Implicit Types (graph : Graph) (deg : gmap string Z) (x node : string).

Lemma count_edge_lookup deg dependent x k :
  deg !! x = Some k →
  count_edge deg dependent !! x = Some (if decide (dependent = x) then k + 1 else k)%Z.
Proof.
  intros Hx. unfold count_edge. case_decide as Heq.
  - subst dependent. rewrite Hx. apply lookup_insert_eq.
  - destruct (deg !! dependent); [by rewrite lookup_insert_ne|done].
Qed.

(** Counting the edges of one dependency set never lowers an entry, and
    raises the entries of the members of the set. *)
Lemma count_edges_lookup (l : list string) deg x k :
  deg !! x = Some k →
  ∃ k', foldl count_edge deg l !! x = Some k' ∧ (k ≤ k')%Z ∧ (x ∈ l → (k < k')%Z).
Proof.
  revert deg k. induction l as [|d l IH]; intros deg k Hx; simpl.
  - exists k. split_and!; [done|lia|]. by intros ?%elem_of_nil.
  - destruct (IH _ _ (count_edge_lookup deg d x k Hx)) as (k' & Hk' & Hle & Hlt).
    exists k'. split; [done|]. case_decide as Heq.
    + split; [lia|]. intros _. lia.
    + split; [done|]. intros [->|Hin]%elem_of_cons; [done|auto].
Qed.

Lemma count_all_lookup graph (ms : list string) deg x k :
  deg !! x = Some k →
  ∃ k', foldl (λ deg node, foldl count_edge deg (elements (graph_get graph node)))
              deg ms !! x = Some k'
        ∧ (k ≤ k')%Z
        ∧ (∀ m, m ∈ ms → x ∈ graph_get graph m → (k < k')%Z).
Proof.
  revert deg k. induction ms as [|m ms IH]; intros deg k Hx; simpl.
  - exists k. split_and!; [done|lia|]. by intros ? ?%elem_of_nil.
  - destruct (count_edges_lookup (elements (graph_get graph m)) deg x k Hx)
      as (k1 & Hk1 & Hle1 & Hlt1).
    destruct (IH _ _ Hk1) as (k' & Hk' & Hle & Hlt).
    exists k'. split_and!; [done|lia|].
    intros m' [->|Hin]%elem_of_cons Hdep.
    + assert (k < k1)%Z by (apply Hlt1; by apply elem_of_elements). lia.
    + specialize (Hlt m' Hin Hdep). lia.
Qed.

Lemma in_degree_zero_keep (l : list string) deg x :
  deg !! x = Some 0%Z →
  foldl (λ deg node, <[node := 0%Z]> deg) deg l !! x = Some 0%Z.
Proof.
  revert deg. induction l as [|y l IH]; intros deg Hx; simpl; [done|].
  apply IH. destruct (decide (y = x)) as [->|Hne].
  - apply lookup_insert_eq.
  - by rewrite lookup_insert_ne.
Qed.

Lemma in_degree_zero_lookup graph x :
  x ∈ nodes graph → in_degree_zero graph !! x = Some 0%Z.
Proof.
  unfold in_degree_zero. generalize (∅ : gmap string Z).
  induction (nodes graph) as [|y l IH]; intros deg Hin; simpl.
  - by apply elem_of_nil in Hin.
  - destruct (decide (y = x)) as [->|Hne].
    + apply in_degree_zero_keep, lookup_insert_eq.
    + apply IH. by apply elem_of_cons in Hin as [?|?].
Qed.

(** A node whose in-degree is zero is in no dependency set. *)
Lemma zero_in_degree_free graph x m :
  x ∈ nodes graph → in_degree_of graph !!! x = 0%Z →
  m ∈ nodes graph → x ∉ graph_get graph m.
Proof.
  intros Hx Hzero Hm Hdep.
  destruct (count_all_lookup graph (nodes graph) _ x 0 (in_degree_zero_lookup graph x Hx))
    as (k' & Hk' & _ & Hlt).
  specialize (Hlt m Hm Hdep).
  unfold in_degree_of in Hzero. rewrite lookup_total_alt, Hk' in Hzero.
  simpl in Hzero. lia.
Qed.

Lemma release_free node graph deg (queue ms : list string) :
  (∀ m, m ∈ ms → node ∉ graph_get graph m) →
  foldl (release node) (graph, deg, queue) ms = (graph, deg, queue).
Proof.
  induction ms as [|m ms IH]; intros Hfree; simpl; [done|].
  rewrite decide_False by (apply Hfree; left).
  apply IH. intros m' Hm'. apply Hfree. by right.
Qed.

(** When no queued node occurs in a dependency set, the loop only moves
    the queue to the result. *)
Lemma process_free graph deg (queue result : list string) fuel :
  length queue ≤ fuel →
  (∀ node m, node ∈ queue → m ∈ nodes graph → node ∉ graph_get graph m) →
  process fuel graph deg queue result = Some (graph, result ++ queue).
Proof.
  revert fuel result. induction queue as [|node queue IH]; intros fuel result Hfuel Hfree.
  - simpl. destruct fuel; by rewrite app_nil_r.
  - destruct fuel as [|fuel]; simpl in *; [lia|].
    rewrite release_free by (intros m Hm; apply Hfree; [left|done]).
    rewrite IH; [by rewrite <-app_assoc|lia|].
    intros n m Hn Hm. apply Hfree; [by right|done].
Qed.

Definition roots graph : list string := initial_queue graph (in_degree_of graph).

Lemma process_roots graph :
  process (sort_fuel graph) graph (in_degree_of graph) (roots graph) []
  = Some (graph, roots graph).
Proof.
  apply process_free.
  - unfold roots, initial_queue, sort_fuel, nodes.
    etrans; [apply length_filter|]. rewrite length_fmap. lia.
  - intros node m [Hzero Hnode]%list_elem_of_filter Hm.
    by apply zero_in_degree_free.
Qed.

(** What the sorter computes: the nodes nothing depends on, in graph
    order, then all other nodes, in graph order. *)
Lemma sort_spec graph :
  _topological_sort graph =
  Some (if decide (length (roots graph) ≠ length graph) then
          let cycles := filter (λ node, node ∉ roots graph) (nodes graph) in
          (roots graph ++ cycles, [cycle_warning; cycle_tables_warning cycles])
        else (roots graph, [])).
Proof.
  unfold _topological_sort. fold (roots graph). rewrite process_roots.
  by case_decide.
Qed.

Lemma sort_order_perm graph order log :
  _topological_sort graph = Some (order, log) → order ≡ₚ nodes graph.
Proof.
  rewrite sort_spec. intros [= Heq]. case_decide as Hlen; simplify_eq.
  - unfold roots, initial_queue. rewrite filter_not_elem_of_filter.
    apply filter_app_complement.
  - unfold roots, initial_queue in *.
    rewrite filter_all_length; [done|]. unfold nodes. by rewrite length_fmap.
Qed.

End SorterFacts.

(** C1 (topological validity).  The claim asks that on an acyclic graph a
    dependency comes before the table that needs it.  The sorter seeds its
    queue with the nodes nothing depends on instead of the nodes that depend
    on nothing: on the acyclic graph [{b: {a}, a: {}}], where [b] depends on
    [a], it returns [b] before [a] and reports a cycle that does not
    exist. *)
Theorem topological_order_reversed :
  _topological_sort [("b", {["a"]}); ("a", ∅)]
  = Some (["b"; "a"],
          ["Circular dependencies detected in SQL queries"; "Tables in cycles: a"]).
Proof. vm_compute. reflexivity. Qed.

(** C8 (cycle tolerance).  On the graph [{A: {B}, B: {A}}] the sorter returns
    the two nodes and logs the cycle warnings.  On every graph the queue loop
    ends with some list [resolved] of nodes, and the sorter returns
    [resolved] followed by every node of the graph that is not in it; the
    warnings are logged exactly when [resolved] misses a node. *)
Theorem cycle_tolerated :
  _topological_sort [("A", {["B"]}); ("B", {["A"]})]
  = Some (["A"; "B"],
          ["Circular dependencies detected in SQL queries"; "Tables in cycles: A, B"])
  ∧ ∀ graph : Graph, ∃ graph' resolved order log,
      Sorter.process (Sorter.sort_fuel graph) graph (Sorter.in_degree_of graph)
        (Sorter.initial_queue graph (Sorter.in_degree_of graph)) []
      = Some (graph', resolved)
      ∧ _topological_sort graph = Some (order, log)
      ∧ order = resolved ++ filter (λ node, node ∉ resolved) (nodes graph)
      ∧ (∀ node, node ∈ nodes graph → node ∈ order)
      ∧ (log ≠ [] ↔ length resolved ≠ length graph).
Proof.
  split; [vm_compute; reflexivity|].
  intros graph.
  pose proof (process_roots graph) as Hproc. unfold roots in Hproc.
  pose proof (sort_spec graph) as Hsort.
  destruct (decide (length (roots graph) ≠ length graph)) as [Hlen|Hlen].
  - eexists graph, (roots graph), _, _. split_and!; [done|done|done| |done].
    intros node Hnode. rewrite elem_of_app, list_elem_of_filter.
    destruct (decide (node ∈ roots graph)); auto.
  - apply dec_stable in Hlen.
    assert (roots graph = nodes graph) as Hall.
    { apply filter_all_length. unfold nodes. by rewrite length_fmap. }
    eexists graph, (roots graph), _, _. split_and!; [done|done| | |].
    + rewrite Hall, filter_none, app_nil_r; [done|]. intros x Hx. tauto.
    + intros node. by rewrite Hall.
    + split; [done|]. intros Hne. by rewrite Hlen in Hne.
Qed.

(** C10 (the order is a permutation of the nodes).  For every graph, cyclic
    or not, the sorter returns an order that is a rearrangement of the keys
    of the graph: as the keys of a dict are distinct, every node occurs in
    the order exactly once. *)
Theorem sort_permutation (graph : Graph) :
  NoDup (nodes graph) →
  ∃ order log,
    _topological_sort graph = Some (order, log)
    ∧ order ≡ₚ nodes graph
    ∧ NoDup order
    ∧ length order = length graph
    ∧ ∀ node, node ∈ order ↔ node ∈ nodes graph.
Proof.
  intros Hnodup.
  destruct (_topological_sort graph) as [[order log]|] eqn:Hsort;
    [|by rewrite sort_spec in Hsort].
  pose proof (sort_order_perm graph order log Hsort) as Hperm.
  exists order, log. split_and!; [done|done| | |].
  - by rewrite Hperm.
  - rewrite Hperm. unfold nodes. by rewrite length_fmap.
  - intros node. by rewrite Hperm.
Qed.

Lemma sort_permutation_witness :
  ∃ order log,
    _topological_sort [("b", {["a"]}); ("c", {["b"; "a"]}); ("a", {["c"]}); ("d", ∅)]
    = Some (order, log)
    ∧ order ≡ₚ ["b"; "c"; "a"; "d"]
    ∧ NoDup order
    ∧ length order = 4
    ∧ ∀ node, node ∈ order ↔ node ∈ ["b"; "c"; "a"; "d"].
Proof.
  apply (sort_permutation [("b", {["a"]}); ("c", {["b"; "a"]}); ("a", {["c"]}); ("d", ∅)]).
  apply (bool_decide_unpack _). vm_compute. exact I.
Defined.

(** ** The character-scan splitter *)

Section SplitterFacts.

Import Splitter.

Implicit Types (st : ScanState) (s : string) (char : ascii).

Lemma append_cons char s1 s2 : String char s1 +:+ s2 = String char (s1 +:+ s2).
Proof. reflexivity. Qed.

Lemma snoc_append s1 char s2 : PyStr.snoc s1 char +:+ s2 = s1 +:+ String char s2.
Proof.
  unfold PyStr.snoc. induction s1 as [|c s1 IH]; [done|].
  by rewrite !append_cons, IH.
Qed.

Lemma scan_append st s1 s2 : scan st (s1 +:+ s2) = scan (scan st s1) s2.
Proof.
  revert st. induction s1 as [|c s1 IH]; intros st; [done|].
  rewrite append_cons. simpl. apply IH.
Qed.





(** Comment stripping leaves a character alone unless a comment opens
    there. *)
Lemma strip_line_step char s :
  ¬ (char = "-"%char ∧ ∃ rest, s = String "-"%char rest) →
  strip_line_comments false (String char s) = String char (strip_line_comments false s).
Proof.
  intros Hno. destruct (decide (char = "-"%char)) as [->|Hchar].
  - destruct s as [|c s]; [done|].
    destruct (decide (c = "-"%char)) as [->|Hc]; [exfalso; apply Hno; eauto|].
    by destruct c as [[] [] [] [] [] [] [] []].
  - by destruct char as [[] [] [] [] [] [] [] []].
Qed.

Lemma strip_block_step char s :
  ¬ (char = "/"%char ∧ ∃ rest, s = String "*"%char rest) →
  strip_block_comments 0 (String char s) = String char (strip_block_comments 0 s).
Proof.
  intros Hno. destruct (decide (char = "/"%char)) as [->|Hchar].
  - destruct s as [|c s]; [done|].
    destruct (decide (c = "*"%char)) as [->|Hc]; [exfalso; apply Hno; eauto|].
    by destruct c as [[] [] [] [] [] [] [] []].
  - by destruct char as [[] [] [] [] [] [] [] []].
Qed.

(** A batch without [--] and without [/*] is scanned as it is. *)
Lemma strip_comments_id s :
  (∀ pre post, s ≠ pre +:+ String "-"%char (String "-"%char post)) →
  (∀ pre post, s ≠ pre +:+ String "/"%char (String "*"%char post)) →
  strip_comments s = s.
Proof.
  intros Hline Hblock. unfold strip_comments.
  assert (strip_line_comments false s = s) as ->.
  { clear Hblock. induction s as [|c s IH]; [done|].
    rewrite strip_line_step.
    - f_equal. apply IH. intros pre post ->. by apply (Hline (String c pre) post).
    - intros [-> [rest ->]]. by apply (Hline "" rest). }
  clear Hline. induction s as [|c s IH]; [done|].
  rewrite strip_block_step.
  - f_equal. apply IH. intros pre post ->. by apply (Hblock (String c pre) post).
  - intros [-> [rest ->]]. by apply (Hblock "" rest).
Qed.

End SplitterFacts.


(** C4 (streaming splitter).  The claim asks that a semicolon inside a quoted
    literal ends no statement and that no statement is lost.  The streaming
    splitter cuts the buffer at every semicolon and, when the piece fails the
    boundary test, throws the piece away instead of keeping it for the next
    round: the statement with the quoted semicolon disappears from the
    output, while the character scan keeps it.  The same happens on a batch
    of 1101 statements, which [_process_large_batch] sends to the streaming
    splitter and which spans two chunks: 1100 statements come back, the
    first one is lost. *)
Theorem stream_split_loses_statement :
  Splitter._stream_split_queries "INSERT INTO t VALUES ('a;b'); SELECT 1;"
  = ["SELECT 1;"]
  ∧ Splitter._split_with_regex "INSERT INTO t VALUES ('a;b'); SELECT 1;"
    = ["INSERT INTO t VALUES ('a;b');"; "SELECT 1;"]
  ∧ N.of_nat (String.length quoted_then_selects) = 11029%N
  ∧ Splitter._process_large_batch quoted_then_selects
    = Splitter._stream_split_queries quoted_then_selects
  ∧ Splitter._stream_split_queries quoted_then_selects = replicate 1100 "SELECT 1;"
  ∧ Splitter._split_with_regex quoted_then_selects
    = "INSERT INTO t VALUES ('a;b');" :: replicate 1100 "SELECT 1;".
Proof. split_and!; vm_compute; reflexivity. Qed.

(** ** The table extractor *)

Section ExtractorFacts.

Variable P : Parser.

Implicit Types (query name : string) (e : Expression).

Lemma lower_char_idemp (c : ascii) : PyStr.lower_char (PyStr.lower_char c) = PyStr.lower_char c.
Proof. by destruct c as [[] [] [] [] [] [] [] []]. Qed.

Lemma lower_idemp (s : string) : PyStr.lower (PyStr.lower s) = PyStr.lower s.
Proof. induction s as [|c s IH]; [done|]. simpl. by rewrite lower_char_idemp, IH. Qed.

Lemma lower_append (s1 s2 : string) :
  PyStr.lower (s1 +:+ s2) = PyStr.lower s1 +:+ PyStr.lower s2.
Proof. induction s1 as [|c s1 IH]; [done|]. rewrite append_cons. simpl. by rewrite IH. Qed.

Lemma qualified_name_lower (table : Table) :
  PyStr.lower (qualified_name table) = qualified_name table.
Proof.
  unfold qualified_name. case_decide; [apply lower_idemp|].
  by rewrite !lower_append, !lower_idemp.
Qed.

(** One expression adds to the referenced tables only lower-case names of
    its table nodes that are not CTE names seen up to and including it. *)
Lemma extract_expression_referenced acc e name :
  name ∈ (extract_expression acc e).1.2 →
  name ∈ acc.1.2
  ∨ ((name ∉ (extract_expression acc e).2)
     ∧ ∃ t, t ∈ _get_table_references e ∧ name = PyStr.lower t).
Proof.
  destruct acc as [[created referenced] ctes]. simpl.
  rewrite elem_of_union, elem_of_map.
  intros [?|(t & -> & [Hcte Ht]%elem_of_filter)]; [by left|right].
  split; [done|]. by exists t.
Qed.




(** A referenced name that was not there before comes from a table node. *)
Lemma extract_fold_origin (es : list Expression) acc name :
  name ∈ (foldl extract_expression acc es).1.2 →
  name ∈ acc.1.2
  ∨ ∃ e t, e ∈ es ∧ t ∈ _get_table_references e ∧ name = PyStr.lower t.
Proof.
  revert acc. induction es as [|e es IH]; intros acc; simpl; [by left|].
  intros [[?|(_ & t & ? & ?)]%extract_expression_referenced
         |(e' & t & ? & ? & ?)]%IH.
  - by left.
  - right. exists e, t. split_and!; [left|done|done].
  - right. exists e', t. split_and!; [by right|done|done].
Qed.




Lemma extract_failure query :
  parse P query = None → _extract_tables_from_query P query = (∅, ∅).
Proof. intros Hparse. unfold _extract_tables_from_query. by rewrite Hparse. Qed.

End ExtractorFacts.

(** ** The graph builder and the batch analysis *)

Section BatchFacts.

Variable P : Parser.

Implicit Types (graph : Graph) (query name : string) (queries : list string).

Lemma graph_get_set graph k v k' :
  graph_get (graph_set graph k v) k' = if decide (k = k') then v else graph_get graph k'.
Proof.
  induction graph as [|[k0 v0] graph IH]; simpl.
  - done.
  - destruct (decide (k0 = k)) as [->|Hne]; simpl.
    + by destruct (decide (k = k')).
    + rewrite IH. destruct (decide (k0 = k')) as [->|]; [|done].
      by rewrite decide_False.
Qed.

(** Tables created, and tables referenced, by the statements of a list. *)
Definition created_by queries : gset string :=
  ⋃ ((λ q, (_extract_tables_from_query P q).1) <$> queries).

Definition referenced_by queries : gset string :=
  ⋃ ((λ q, (_extract_tables_from_query P q).2) <$> queries).

Definition detail_of query : QueryDetail :=
  mkDetail query (elements (_extract_tables_from_query P query).1)
                 (elements (_extract_tables_from_query P query).2).

Lemma standard_fold queries details (created referenced : gset string) :
  foldl (standard_query P) (details, created, referenced) queries
  = (details ++ (detail_of <$> queries),
     created ∪ created_by queries, referenced ∪ referenced_by queries).
Proof.
  revert details created referenced.
  induction queries as [|q queries IH]; intros details created referenced; cbn [foldl].
  - unfold created_by, referenced_by. simpl.
    by rewrite app_nil_r, !(right_id_L ∅ (∪)).
  - destruct (_extract_tables_from_query P q) as [c r] eqn:Hq.
    assert (standard_query P (details, created, referenced) q
            = (details ++ [mkDetail q (elements c) (elements r)],
               created ∪ c, referenced ∪ r)) as ->
      by (unfold standard_query; by rewrite Hq).
    rewrite IH. unfold created_by, referenced_by, detail_of. simpl. rewrite Hq. simpl.
    by rewrite <-app_assoc, !(assoc_L (∪)).
Qed.

Lemma analyze_queries_total queries : is_Some (analyze_queries P queries).
Proof. unfold analyze_queries. rewrite sort_spec. by eexists. Qed.

(** The regular branch, in closed form. *)
Lemma analyze_standard_spec queries :
  analyze_standard P queries =
  (λ table_order,
     mkResult table_order
       (elements (referenced_by queries ∖ created_by queries))
       (detail_of <$> queries) (length queries)
       (size (created_by queries)
        + size (referenced_by queries ∖ created_by queries)) None None)
  <$> analyze_queries P queries.
Proof.
  unfold analyze_standard. rewrite standard_fold, !(left_id_L ∅ (∪)). simpl.
  by destruct (analyze_queries P queries).
Qed.

Lemma build_query_failure st query :
  _extract_tables_from_query P query = (∅, ∅) → build_query P st query = st.
Proof.
  intros Hq. destruct st as [graph all_tables]. unfold build_query. rewrite Hq.
  by rewrite elements_empty, !(right_id_L ∅ (∪)).
Qed.

Lemma build_skip queries1 queries2 query :
  _extract_tables_from_query P query = (∅, ∅) →
  _build_dependency_graph P (queries1 ++ query :: queries2)
  = _build_dependency_graph P (queries1 ++ queries2).
Proof.
  intros Hq. unfold _build_dependency_graph.
  rewrite !foldl_app. cbn [foldl]. by rewrite build_query_failure.
Qed.






Lemma created_by_skip queries1 queries2 query :
  _extract_tables_from_query P query = (∅, ∅) →
  created_by (queries1 ++ query :: queries2) = created_by (queries1 ++ queries2)
  ∧ referenced_by (queries1 ++ query :: queries2) = referenced_by (queries1 ++ queries2).
Proof.
  intros Hq. unfold created_by, referenced_by.
  rewrite !fmap_app, !fmap_cons, !union_list_app_L, !union_list_cons, Hq. simpl.
  by rewrite !(left_id_L ∅ (∪)).
Qed.

Lemma analyze_large_total queries : is_Some (_analyze_large_batch P queries).
Proof.
  unfold _analyze_large_batch.
  destruct (foldl (large_create P) _ _) as [create_details all_created_tables].
  destruct (foldl (large_other P) _ _) as [other_details all_referenced_tables].
  destruct (analyze_queries_total
              (critical_queries P
                 (filter (λ q, Splitter.is_create_statement q = true) queries)
                 (filter (λ q, Splitter.is_create_statement q ≠ true) queries)
                 all_created_tables)) as [order ->].
  by eexists.
Qed.

Lemma analyze_batch_total sql_batch : is_Some (analyze_batch P sql_batch).
Proof.
  unfold analyze_batch. case_decide; [apply analyze_large_total|].
  rewrite analyze_standard_spec.
  destruct (analyze_queries_total (split_batch_queries P sql_batch)) as [order ->].
  by eexists.
Qed.

End BatchFacts.

(** C5 (a parse failure stays local).  When the parser raises on a
    statement, the extractor returns two empty sets.  The statement then adds
    nothing to the graph, and the regular analysis of a batch that contains
    it gives the order, the external dependencies and the table count of the
    batch without it, with one more statement counted and an empty detail
    record for it.  Both analysis paths return a result for every list of
    statements, and [analyze_batch] for every text. *)
Theorem parse_failure_contained (P : Parser) (query : string) :
  parse P query = None →
  _extract_tables_from_query P query = (∅, ∅)
  ∧ (∀ before after : list string,
       _build_dependency_graph P (before ++ query :: after)
       = _build_dependency_graph P (before ++ after)
       ∧ ∃ r r',
           analyze_standard P (before ++ after) = Some r
           ∧ analyze_standard P (before ++ query :: after) = Some r'
           ∧ table_creation_order r' = table_creation_order r
           ∧ external_dependencies r' = external_dependencies r
           ∧ total_tables r' = total_tables r
           ∧ total_queries r' = S (total_queries r)
           ∧ query_details r'
             = take (length before) (query_details r)
               ++ mkDetail query [] [] :: drop (length before) (query_details r))
  ∧ (∀ queries, is_Some (_analyze_large_batch P queries))
  ∧ (∀ sql_batch, is_Some (analyze_batch P sql_batch)).
Proof.
  intros Hparse. pose proof (extract_failure P query Hparse) as Hq.
  split_and!; [done| |apply analyze_large_total|apply analyze_batch_total].
  intros before after. split; [by apply build_skip|].
  rewrite !analyze_standard_spec. unfold analyze_queries.
  rewrite (build_skip P before after query Hq).
  destruct (created_by_skip P before after query Hq) as [-> ->].
  rewrite sort_spec. cbn [fmap option_fmap option_map].
  eexists _, _. split; [done|]. split; [done|].
  cbn [table_creation_order external_dependencies total_tables total_queries query_details].
  split_and!; try done.
  - rewrite !length_app. simpl. lia.
  - rewrite !fmap_app, fmap_cons.
    rewrite take_app_length', drop_app_length' by (by rewrite length_fmap).
    assert (detail_of P query = mkDetail query [] []) as ->; [|done].
    unfold detail_of. rewrite Hq. simpl. by rewrite elements_empty.
Qed.

Lemma parse_failure_contained_witness :
  _extract_tables_from_query Demo.parser "SELEC * FRM x" = (∅, ∅)
  ∧ table_creation_order <$>
      analyze_standard Demo.parser
        ["CREATE TABLE b AS SELECT * FROM a"; "SELEC * FRM x"; "SELECT * FROM x"]
    = table_creation_order <$>
      analyze_standard Demo.parser
        ["CREATE TABLE b AS SELECT * FROM a"; "SELECT * FROM x"].
Proof.
  destruct (parse_failure_contained Demo.parser "SELEC * FRM x") as (Hq & Hbatch & _).
  { vm_compute. reflexivity. }
  split; [exact Hq|].
  destruct (Hbatch ["CREATE TABLE b AS SELECT * FROM a"] ["SELECT * FROM x"])
    as (_ & r & r' & Hr & Hr' & Horder & _).
  simpl in Hr, Hr'. rewrite Hr, Hr'. simpl. by rewrite Horder.
Defined.





(** ** The two analysis paths *)

Section PathFacts.

Variable P : Parser.

Lemma large_create_fold (queries : list string) details (created : gset string) :
  foldl (large_create P) (details, created) queries
  = (details ++ (detail_of P <$> queries), created ∪ created_by P queries).
Proof.
  revert details created.
  induction queries as [|q queries IH]; intros details created; cbn [foldl].
  - unfold created_by. simpl. by rewrite app_nil_r, (right_id_L ∅ (∪)).
  - destruct (_extract_tables_from_query P q) as [c r] eqn:Hq.
    assert (large_create P (details, created) q
            = (details ++ [mkDetail q (elements c) (elements r)], created ∪ c)) as ->
      by (unfold large_create; by rewrite Hq).
    rewrite IH. unfold created_by, detail_of. simpl. rewrite Hq. simpl.
    by rewrite <-app_assoc, (assoc_L (∪)).
Qed.

(** The statements the large-batch path builds its graph from. *)
Lemma large_batch_order (queries : list string) :
  table_creation_order <$> _analyze_large_batch P queries
  = analyze_queries P
      (critical_queries P
         (filter (λ q, Splitter.is_create_statement q = true) queries)
         (filter (λ q, Splitter.is_create_statement q ≠ true) queries)
         (created_by P (filter (λ q, Splitter.is_create_statement q = true) queries))).
Proof.
  unfold _analyze_large_batch. rewrite large_create_fold, (left_id_L ∅ (∪)).
  destruct (foldl (large_other P) _ _) as [other_details all_referenced_tables].
  by destruct (analyze_queries P _).
Qed.

Lemma standard_order (queries : list string) :
  table_creation_order <$> analyze_standard P queries = analyze_queries P queries.
Proof. rewrite analyze_standard_spec. by destruct (analyze_queries P queries). Qed.

End PathFacts.

(** C2 (end-to-end scenario).  The claim asks for the order [a], [b], [c].
    With a parser that reads the batch as the two CREATE statements, the
    analysis returns [c], [b], [a]: the sorter puts the table nothing depends
    on first (the defect of C1).  The table count [3] and the external
    dependencies [{a}] are as claimed. *)
Theorem chain_batch_order_reversed (P : Parser) :
  parse P "CREATE TABLE b AS SELECT * FROM a; CREATE TABLE c AS SELECT * FROM b;"
  = Some [create_b_from_a; create_c_from_b] →
  parse P (render P create_b_from_a) = Some [create_b_from_a] →
  parse P (render P create_c_from_b) = Some [create_c_from_b] →
  analyze_batch P "CREATE TABLE b AS SELECT * FROM a; CREATE TABLE c AS SELECT * FROM b;"
  = Some (mkResult ["c"; "b"; "a"] ["a"]
            [mkDetail (render P create_b_from_a) ["b"] ["a"];
             mkDetail (render P create_c_from_b) ["c"] ["b"]]
            2 3 None None).
Proof.
  intros Hbatch Hb Hc.
  assert (_extract_tables_from_query P (render P create_b_from_a) = ({["b"]}, {["a"]})) as Hqb
    by (unfold _extract_tables_from_query; rewrite Hb; vm_compute; reflexivity).
  assert (_extract_tables_from_query P (render P create_c_from_b) = ({["c"]}, {["b"]})) as Hqc
    by (unfold _extract_tables_from_query; rewrite Hc; vm_compute; reflexivity).
  unfold analyze_batch, split_batch_queries.
  assert ((1000000 <? N.of_nat (String.length
             "CREATE TABLE b AS SELECT * FROM a; CREATE TABLE c AS SELECT * FROM b;"))%N
          = false) as -> by (vm_compute; reflexivity).
  rewrite Hbatch. cbn [fmap list_fmap].
  rewrite decide_False by (simpl; lia).
  rewrite analyze_standard_spec.
  unfold analyze_queries, _build_dependency_graph, created_by, referenced_by, detail_of.
  cbn [foldl fmap list_fmap]. unfold build_query. rewrite !Hqb, !Hqc.
  vm_compute. reflexivity.
Qed.

Lemma chain_batch_order_reversed_witness :
  table_creation_order <$>
    analyze_batch Demo.parser
      "CREATE TABLE b AS SELECT * FROM a; CREATE TABLE c AS SELECT * FROM b;"
  = Some ["c"; "b"; "a"].
Proof.
  rewrite (chain_batch_order_reversed Demo.parser).
  - reflexivity.
  - vm_compute. reflexivity.
  - vm_compute. reflexivity.
  - vm_compute. reflexivity.
Defined.

(** C3 (large-batch equivalence), as stated, fails.  On a batch of two
    statements, a CREATE statement and a SELECT from a table the batch does
    not create, the regular path orders three tables and reports two external
    dependencies; the large-batch path orders two tables and reports one. *)
Lemma large_batch_differs :
  let queries := ["CREATE TABLE b AS SELECT * FROM a"; "SELECT * FROM x"] in
  length queries ≤ 1000
  ∧ table_creation_order <$> analyze_standard Demo.parser queries = Some ["b"; "x"; "a"]
  ∧ table_creation_order <$> _analyze_large_batch Demo.parser queries = Some ["b"; "a"]
  ∧ list_to_set <$> (external_dependencies <$> analyze_standard Demo.parser queries)
    = Some ({["a"; "x"]} : gset string)
  ∧ list_to_set <$> (external_dependencies <$> _analyze_large_batch Demo.parser queries)
    = Some ({["x"]} : gset string)
  ∧ ¬ (table_creation_order <$> analyze_standard Demo.parser queries
       = table_creation_order <$> _analyze_large_batch Demo.parser queries
       ∧ list_to_set (C:=gset string) <$>
           (external_dependencies <$> analyze_standard Demo.parser queries)
         = list_to_set <$>
           (external_dependencies <$> _analyze_large_batch Demo.parser queries)).
Proof.
  intros queries.
  assert (table_creation_order <$> analyze_standard Demo.parser queries
          = Some ["b"; "x"; "a"]) as Hs by (vm_compute; reflexivity).
  assert (table_creation_order <$> _analyze_large_batch Demo.parser queries
          = Some ["b"; "a"]) as Hl by (vm_compute; reflexivity).
  split_and!; [simpl; lia|done|done|vm_compute; reflexivity|vm_compute; reflexivity|].
  rewrite Hs, Hl. by intros [? _].
Qed.

(** C3, amended.  For every batch of at most 1000 statements in which the
    CREATE statements come first and every other statement references a
    table created by one of them, the large-batch path and the regular path
    return the same [table_creation_order]. *)
Theorem large_batch_order_agrees (P : Parser) (creates others : list string) :
  length (creates ++ others) ≤ 1000 →
  Forall (λ q, Splitter.is_create_statement q = true) creates →
  Forall (λ q, Splitter.is_create_statement q = false) others →
  Forall (λ q, (_extract_tables_from_query P q).2 ∩ created_by P creates ≠ ∅) others →
  ∃ standard large,
    analyze_standard P (creates ++ others) = Some standard
    ∧ _analyze_large_batch P (creates ++ others) = Some large
    ∧ table_creation_order large = table_creation_order standard.
Proof.
  intros Hlen Hcreates Hothers Hcritical.
  rewrite Forall_forall in Hcreates, Hothers, Hcritical.
  destruct (analyze_large_total P (creates ++ others)) as [large Hlarge].
  destruct (analyze_standard P (creates ++ others)) as [standard|] eqn:Hstandard.
  2: { pose proof (standard_order P (creates ++ others)) as Hord.
       rewrite Hstandard in Hord.
       destruct (analyze_queries_total P (creates ++ others)) as [? Hsome].
       by rewrite Hsome in Hord. }
  exists standard, large. split_and!; [done|done|].
  pose proof (standard_order P (creates ++ others)) as Hs.
  pose proof (large_batch_order P (creates ++ others)) as Hl.
  rewrite Hstandard in Hs. rewrite Hlarge in Hl. simpl in Hs, Hl.
  assert (filter (λ q, Splitter.is_create_statement q = true) (creates ++ others) = creates)
    as Hfc.
  { rewrite filter_app, filter_all, filter_none, app_nil_r; [done| |done].
    intros q Hq. rewrite (Hothers q Hq). done. }
  assert (filter (λ q, Splitter.is_create_statement q ≠ true) (creates ++ others) = others)
    as Hfo.
  { rewrite filter_app, filter_none, filter_all; [done| |].
    - intros q Hq. rewrite (Hothers q Hq). done.
    - intros q Hq Hne. by apply Hne, Hcreates. }
  rewrite Hfc, Hfo in Hl. unfold critical_queries in Hl.
  rewrite take_ge, filter_all in Hl; [congruence|done|].
  rewrite length_app in Hlen. lia.
Qed.

Lemma large_batch_order_agrees_witness :
  ∃ standard large,
    analyze_standard Demo.parser ["CREATE TABLE b AS SELECT * FROM a"; "SELECT * FROM b"]
    = Some standard
    ∧ _analyze_large_batch Demo.parser
        ["CREATE TABLE b AS SELECT * FROM a"; "SELECT * FROM b"] = Some large
    ∧ table_creation_order large = table_creation_order standard.
Proof.
  apply (large_batch_order_agrees Demo.parser
           ["CREATE TABLE b AS SELECT * FROM a"] ["SELECT * FROM b"]).
  - simpl. lia.
  - apply (bool_decide_unpack _). vm_compute. exact I.
  - apply (bool_decide_unpack _). vm_compute. exact I.
  - apply (bool_decide_unpack _). vm_compute. exact I.
Defined.

(** * Further properties *)

(** ** The in-degree table and the layout of the order *)

Section SorterLayout.

Import Sorter.

Implicit Types (graph : Graph) (deg : gmap string Z) (x node : string).

Lemma count_edge_lookup_fmap deg dependent x :
  count_edge deg dependent !! x
  = (λ k, if decide (dependent = x) then k + 1 else k)%Z <$> deg !! x.
Proof.
  destruct (deg !! x) as [k|] eqn:Hx; simpl.
  - by apply count_edge_lookup.
  - unfold count_edge. destruct (deg !! dependent) as [k|] eqn:Hd; [|done].
    rewrite lookup_insert_ne; [done|]. intros ->. congruence.
Qed.

Lemma count_edges_exact (l : list string) deg x :
  NoDup l →
  foldl count_edge deg l !! x
  = (λ k, k + if decide (x ∈ l) then 1 else 0)%Z <$> deg !! x.
Proof.
  intros Hnodup. revert deg. induction Hnodup as [|d l Hd Hnodup IH]; intros deg;
    cbn [foldl].
  - destruct (deg !! x); cbn [fmap option_fmap option_map]; [|done].
    rewrite decide_False by apply not_elem_of_nil. f_equal. lia.
  - rewrite IH, count_edge_lookup_fmap.
    destruct (deg !! x) as [k|]; cbn [fmap option_fmap option_map]; [|done].
    f_equal. destruct (decide (d = x)) as [->|Hne].
    + rewrite decide_False by done. rewrite (decide_True (P := x ∈ x :: l)) by left. lia.
    + destruct (decide (x ∈ l)) as [Hin|Hnin].
      * rewrite decide_True by (by right). done.
      * rewrite decide_False; [done|]. intros [?|?]%elem_of_cons; congruence.
Qed.

Lemma count_all_exact graph (ms : list string) deg x :
  foldl (λ deg node, foldl count_edge deg (elements (graph_get graph node))) deg ms !! x
  = (λ k, k + Z.of_nat (length (filter (λ m, x ∈ graph_get graph m) ms)))%Z <$> deg !! x.
Proof.
  revert deg. induction ms as [|m ms IH]; intros deg; simpl.
  - destruct (deg !! x); simpl; [f_equal; lia|done].
  - rewrite IH, count_edges_exact by apply NoDup_elements.
    destruct (deg !! x) as [k|]; simpl; [|done]. f_equal.
    rewrite filter_cons.
    destruct (decide (x ∈ graph_get graph m)) as [Hin|Hnin].
    + rewrite decide_True by (by apply elem_of_elements). simpl. lia.
    + rewrite decide_False by (by rewrite elem_of_elements). lia.
Qed.

Lemma in_degree_zero_other (l : list string) deg x :
  x ∉ l → foldl (λ deg node, <[node := 0%Z]> deg) deg l !! x = deg !! x.
Proof.
  revert deg. induction l as [|y l IH]; intros deg Hx; simpl; [done|].
  apply not_elem_of_cons in Hx as [? ?]. rewrite IH by done. by rewrite lookup_insert_ne.
Qed.

(** X2.  After the counting loops, the entry of a node is the number of
    nodes whose dependency set contains it; there is no entry for a name that
    is not a node. *)
Theorem in_degree_counts_dependents graph x :
  in_degree_of graph !! x
  = if decide (x ∈ nodes graph)
    then Some (Z.of_nat (length (filter (λ m, x ∈ graph_get graph m) (nodes graph))))
    else None.
Proof.
  unfold in_degree_of. rewrite count_all_exact. case_decide as Hx.
  - by rewrite in_degree_zero_lookup.
  - unfold in_degree_zero. by rewrite in_degree_zero_other, lookup_empty.
Qed.

Lemma root_iff graph x :
  x ∈ nodes graph →
  in_degree_of graph !!! x = 0%Z ↔ Forall (λ m, x ∉ graph_get graph m) (nodes graph).
Proof.
  intros Hx. unfold in_degree_of.
  rewrite lookup_total_alt, count_all_exact, in_degree_zero_lookup by done.
  simpl. rewrite Forall_forall. split.
  - intros Hzero m Hm Hdep.
    assert (m ∈ filter (λ m, x ∈ graph_get graph m) (nodes graph)) as Hin
      by (by apply list_elem_of_filter).
    destruct (filter _ (nodes graph)); [by apply elem_of_nil in Hin|simpl in Hzero; lia].
  - intros Hfree. rewrite filter_none; [done|]. intros m Hm Hdep. by apply (Hfree m).
Qed.

Lemma not_free_iff graph x :
  ¬ Forall (λ m, x ∉ graph_get graph m) (nodes graph)
  ↔ Exists (λ m, x ∈ graph_get graph m) (nodes graph).
Proof.
  rewrite Forall_forall, Exists_exists. split.
  - intros Hnot.
    destruct (decide (Exists (λ m, x ∈ graph_get graph m) (nodes graph))) as [Hex|Hno].
    + by apply Exists_exists in Hex.
    + exfalso. apply Hnot. intros m Hm Hdep. apply Hno, Exists_exists. eauto.
  - intros (m & Hm & Hdep) Hall. by apply (Hall m).
Qed.

Lemma roots_free graph :
  roots graph
  = filter (λ n, Forall (λ m, n ∉ graph_get graph m) (nodes graph)) (nodes graph).
Proof.
  unfold roots, initial_queue.
  assert (∀ k : list string, (∀ x, x ∈ k → x ∈ nodes graph) →
            filter (λ n, in_degree_of graph !!! n = 0%Z) k
            = filter (λ n, Forall (λ m, n ∉ graph_get graph m) (nodes graph)) k) as Hgen.
  { induction k as [|x k IH]; intros Hsub; [done|].
    rewrite !filter_cons, IH by (intros y Hy; apply Hsub; by right).
    apply decide_ext, root_iff, Hsub. left. }
  by apply Hgen.
Qed.

Lemma cycles_held graph :
  filter (λ node, node ∉ roots graph) (nodes graph)
  = filter (λ n, Exists (λ m, n ∈ graph_get graph m) (nodes graph)) (nodes graph).
Proof.
  rewrite roots_free, filter_not_elem_of_filter.
  apply list_filter_iff. intros n. apply not_free_iff.
Qed.

(** X1.  The order is made of the nodes that are in no dependency set, in
    graph order, followed by the nodes that are in one, in graph order.  The
    cycle warnings are logged exactly when the second part is not empty. *)
Theorem sort_layout graph :
  let free := filter (λ n, Forall (λ m, n ∉ graph_get graph m) (nodes graph)) (nodes graph) in
  let held := filter (λ n, Exists (λ m, n ∈ graph_get graph m) (nodes graph)) (nodes graph) in
  _topological_sort graph
  = Some (free ++ held,
          match held with
          | [] => []
          | _ :: _ => [cycle_warning; cycle_tables_warning held]
          end).
Proof.
  intros free held. rewrite sort_spec, cycles_held, roots_free. fold free. fold held.
  pose proof (filter_app_complement
                (λ n, Forall (λ m, n ∉ graph_get graph m) (nodes graph)) (nodes graph)) as Hperm.
  apply Permutation_length in Hperm. rewrite length_app in Hperm.
  assert (length (nodes graph) = length graph) as Hlen by (unfold nodes; apply length_fmap).
  assert (length (filter (λ x, ¬ Forall (λ m, x ∉ graph_get graph m) (nodes graph)) (nodes graph))
          = length held) as Hlen'.
  { unfold held. f_equal. apply list_filter_iff. intros n. apply not_free_iff. }
  fold free in Hperm. rewrite Hlen', Hlen in Hperm. clear Hlen' Hlen.
  clearbody free held.
  destruct held as [|h held']; case_decide as Hne; simpl in Hperm.
  - lia.
  - by rewrite app_nil_r.
  - done.
  - lia.
Qed.

(** X3.  The queue loop ends with the graph it started from: a node is only
    dequeued when it is in no dependency set, so no edge is ever removed. *)
Theorem sort_keeps_graph graph :
  ∃ resolved,
    process (sort_fuel graph) graph (in_degree_of graph)
      (initial_queue graph (in_degree_of graph)) []
    = Some (graph, resolved).
Proof. exists (roots graph). apply process_roots. Qed.

End SorterLayout.

(** ** The built graph *)

Section BuilderFacts.

Variable P : Parser.

Implicit Types (graph : Graph) (query name : string) (queries : list string).

Lemma graph_get_absent graph k : k ∉ nodes graph → graph_get graph k = ∅.
Proof.
  induction graph as [|[k0 v0] graph IH]; simpl; [done|].
  intros [? ?]%not_elem_of_cons. rewrite decide_False by done. by apply IH.
Qed.

Lemma nodes_graph_set graph k v :
  nodes (graph_set graph k v)
  = if decide (k ∈ nodes graph) then nodes graph else nodes graph ++ [k].
Proof.
  induction graph as [|[k0 v0] graph IH].
  - destruct (decide (k ∈ nodes [])) as [Hin|Hnin]; [by apply elem_of_nil in Hin|done].
  - change (nodes ((k0, v0) :: graph)) with (k0 :: nodes graph).
    cbn [graph_set]. destruct (decide (k0 = k)) as [->|Hne].
    + by rewrite decide_True by left.
    + change (nodes ((k0, v0) :: graph_set graph k v))
        with (k0 :: nodes (graph_set graph k v)).
      rewrite IH. destruct (decide (k ∈ nodes graph)) as [Hin|Hnin].
      * by rewrite decide_True by (by right).
      * rewrite decide_False; [done|]. intros [?|?]%elem_of_cons; congruence.
Qed.

Lemma elem_of_nodes_graph_set graph k v n :
  n ∈ nodes (graph_set graph k v) ↔ n ∈ nodes graph ∨ n = k.
Proof.
  rewrite nodes_graph_set. case_decide as Hk.
  - split; [by left|]. by intros [?| ->].
  - rewrite elem_of_app, list_elem_of_singleton. tauto.
Qed.

Lemma NoDup_nodes_graph_set graph k v :
  NoDup (nodes graph) → NoDup (nodes (graph_set graph k v)).
Proof.
  intros Hnodup. rewrite nodes_graph_set. case_decide as Hk; [done|].
  apply NoDup_app. split_and!; [done| |apply NoDup_singleton].
  by intros x Hx ->%list_elem_of_singleton.
Qed.

(** The edges added for one created table. *)
Definition add_edges graph (created_table : string) (refs : list string) : Graph :=
  foldl (λ g' ref_table, add_edge g' created_table ref_table) graph refs.

Lemma add_edges_get graph c (refs : list string) k :
  graph_get (add_edges graph c refs) k
  = if decide (c = k) then graph_get graph c ∪ list_to_set refs else graph_get graph k.
Proof.
  unfold add_edges. revert graph. induction refs as [|r refs IH]; intros graph; simpl.
  - case_decide; [|done]. subst. by rewrite (right_id_L ∅ (∪)).
  - rewrite IH. unfold add_edge. rewrite !graph_get_set.
    destruct (decide (c = k)) as [->|Hne]; [|done].
    rewrite decide_True by done. by rewrite (assoc_L (∪)).
Qed.

Lemma add_edges_nodes graph c (refs : list string) n :
  n ∈ nodes (add_edges graph c refs) ↔ n ∈ nodes graph ∨ (n = c ∧ refs ≠ []).
Proof.
  unfold add_edges. revert graph. induction refs as [|r refs IH]; intros graph; simpl.
  - split; [by left|]. by intros [?|[_ ?]].
  - rewrite IH. unfold add_edge. rewrite elem_of_nodes_graph_set.
    split; [|intros [?|[-> _]]; auto]. intros [[?|?]|[? ?]]; auto.
Qed.

Lemma add_edges_NoDup graph c (refs : list string) :
  NoDup (nodes graph) → NoDup (nodes (add_edges graph c refs)).
Proof.
  unfold add_edges. revert graph. induction refs as [|r refs IH]; intros graph Hnodup;
    simpl; [done|].
  by apply IH, NoDup_nodes_graph_set.
Qed.

(** The edges added for one statement. *)
Definition add_statement graph (created refs : list string) : Graph :=
  foldl (λ g created_table, add_edges g created_table refs) graph created.

Lemma add_statement_get graph (created refs : list string) k :
  graph_get (add_statement graph created refs) k
  = if decide (k ∈ created) then graph_get graph k ∪ list_to_set refs
    else graph_get graph k.
Proof.
  unfold add_statement. revert graph.
  induction created as [|c created IH]; intros graph; cbn [foldl].
  - by rewrite decide_False by apply not_elem_of_nil.
  - rewrite IH, !add_edges_get.
    destruct (decide (c = k)) as [->|Hne].
    + rewrite (decide_True (P := k ∈ k :: created)) by left.
      case_decide; [|done]. apply set_eq. intros x. set_solver.
    + destruct (decide (k ∈ created)) as [Hin|Hnin].
      * by rewrite decide_True by (by right).
      * rewrite decide_False; [done|]. intros [?|?]%elem_of_cons; congruence.
Qed.

Lemma add_statement_nodes graph (created refs : list string) n :
  n ∈ nodes (add_statement graph created refs)
  ↔ n ∈ nodes graph ∨ (n ∈ created ∧ refs ≠ []).
Proof.
  unfold add_statement. revert graph.
  induction created as [|c created IH]; intros graph; simpl.
  - split; [by left|]. intros [?|[?%elem_of_nil _]]; done.
  - rewrite IH, add_edges_nodes, elem_of_cons. tauto.
Qed.

Lemma add_statement_NoDup graph (created refs : list string) :
  NoDup (nodes graph) → NoDup (nodes (add_statement graph created refs)).
Proof.
  unfold add_statement. revert graph.
  induction created as [|c created IH]; intros graph Hnodup; simpl; [done|].
  by apply IH, add_edges_NoDup.
Qed.

Lemma build_query_spec graph (all_tables : gset string) query :
  build_query P (graph, all_tables) query
  = (add_statement graph (elements (_extract_tables_from_query P query).1)
                         (elements (_extract_tables_from_query P query).2),
     all_tables ∪ (_extract_tables_from_query P query).1
                ∪ (_extract_tables_from_query P query).2).
Proof.
  unfold build_query. by destruct (_extract_tables_from_query P query).
Qed.

(** The state after the first loop of the builder. *)
Lemma build_loop_spec queries (st : Graph * gset string) :
  let st' := foldl (build_query P) st queries in
  st'.2 = st.2 ∪ created_by P queries ∪ referenced_by P queries
  ∧ (NoDup (nodes st.1) → NoDup (nodes st'.1))
  ∧ (∀ n, n ∈ nodes st'.1 → n ∈ nodes st.1 ∨ n ∈ created_by P queries)
  ∧ (∀ c r, r ∈ graph_get st'.1 c
            ↔ r ∈ graph_get st.1 c
              ∨ ∃ q, q ∈ queries ∧ c ∈ (_extract_tables_from_query P q).1
                     ∧ r ∈ (_extract_tables_from_query P q).2).
Proof.
  revert st. induction queries as [|q queries IH]; intros [graph all_tables]; cbn [foldl].
  - unfold created_by, referenced_by. simpl. split_and!.
    + by rewrite !(right_id_L ∅ (∪)).
    + done.
    + by left.
    + intros c r. split; [by left|]. by intros [?|(q & ?%elem_of_nil & _)].
  - rewrite build_query_spec.
    destruct (IH (add_statement graph (elements (_extract_tables_from_query P q).1)
                    (elements (_extract_tables_from_query P q).2),
                  all_tables ∪ (_extract_tables_from_query P q).1
                             ∪ (_extract_tables_from_query P q).2))
      as (Hall & Hnodup & Hnodes & Hedges).
    cbn [fst snd] in *. unfold created_by, referenced_by in *.
    rewrite !fmap_cons, !union_list_cons. split_and!.
    + rewrite Hall. apply set_eq. intros x. set_solver.
    + intros Hg. by apply Hnodup, add_statement_NoDup.
    + intros n [Hn| Hn]%Hnodes; [|set_solver].
      apply add_statement_nodes in Hn as [?|[Hn _]]; [by left|right].
      apply elem_of_elements in Hn. set_solver.
    + intros c r. rewrite Hedges, add_statement_get. split.
      * intros [Hr|(q' & Hq' & Hc & Hr)].
        -- case_decide as Hc; [|by left].
           apply elem_of_union in Hr as [?|Hr]; [by left|right].
           exists q. split_and!; [left|by apply elem_of_elements|].
           by apply elem_of_list_to_set, elem_of_elements in Hr.
        -- right. exists q'. split_and!; [by right|done|done].
      * intros [Hr|(q' & [->|Hq']%elem_of_cons & Hc & Hr)].
        -- left. case_decide; [by apply elem_of_union_l|done].
        -- left. rewrite decide_True by (by apply elem_of_elements).
           apply elem_of_union_r, elem_of_list_to_set. by apply elem_of_elements.
        -- right. by exists q'.
Qed.

Lemma add_standalone_get graph (tables : list string) k :
  graph_get (foldl add_standalone graph tables) k = graph_get graph k.
Proof.
  revert graph. induction tables as [|t tables IH]; intros graph; simpl; [done|].
  rewrite IH. unfold add_standalone, graph_mem. case_bool_decide as Ht; [done|].
  rewrite graph_get_set. case_decide; [|done]. subst. by rewrite graph_get_absent.
Qed.

Lemma add_standalone_nodes graph (tables : list string) n :
  n ∈ nodes (foldl add_standalone graph tables) ↔ n ∈ nodes graph ∨ n ∈ tables.
Proof.
  revert graph. induction tables as [|t tables IH]; intros graph; simpl.
  - split; [by left|]. by intros [?|?%elem_of_nil].
  - rewrite IH, elem_of_cons. unfold add_standalone, graph_mem.
    case_bool_decide as Ht.
    + split; [tauto|]. intros [?|[->|?]]; auto.
    + rewrite elem_of_nodes_graph_set. tauto.
Qed.

Lemma add_standalone_NoDup graph (tables : list string) :
  NoDup (nodes graph) → NoDup (nodes (foldl add_standalone graph tables)).
Proof.
  revert graph. induction tables as [|t tables IH]; intros graph Hnodup; simpl; [done|].
  apply IH. unfold add_standalone. case_match; [done|]. by apply NoDup_nodes_graph_set.
Qed.

End BuilderFacts.

Lemma build_nodes_NoDup (P : Parser) (queries : list string) :
  NoDup (nodes (_build_dependency_graph P queries)).
Proof.
  unfold _build_dependency_graph.
  destruct (build_loop_spec P queries ([], ∅)) as (_ & Hnodup & _).
  destruct (foldl (build_query P) ([], ∅) queries) as [graph all_tables].
  cbn [fst snd] in *. apply add_standalone_NoDup, Hnodup. constructor.
Qed.

Lemma build_nodes_elem (P : Parser) (queries : list string) (name : string) :
  name ∈ nodes (_build_dependency_graph P queries)
  ↔ name ∈ created_by P queries ∨ name ∈ referenced_by P queries.
Proof.
  unfold _build_dependency_graph.
  destruct (build_loop_spec P queries ([], ∅)) as (Hall & _ & Hnodes & _).
  destruct (foldl (build_query P) ([], ∅) queries) as [graph all_tables].
  cbn [fst snd] in *. rewrite add_standalone_nodes, elem_of_elements, Hall.
  rewrite (left_id_L ∅ (∪)), elem_of_union. split; [|tauto].
  intros [[?%elem_of_nil|?]%Hnodes|?]; tauto.
Qed.

(** X4.  The nodes of the built graph are exactly the tables that some
    statement of the list creates or references, each of them once. *)
Theorem build_nodes (P : Parser) (queries : list string) :
  NoDup (nodes (_build_dependency_graph P queries))
  ∧ ∀ name, name ∈ nodes (_build_dependency_graph P queries)
            ↔ name ∈ created_by P queries ∨ name ∈ referenced_by P queries.
Proof.
  split.
  - apply build_nodes_NoDup.
  - intros name. apply build_nodes_elem.
Qed.

(** X5.  The built graph has an edge from a table to another exactly when
    one statement of the list creates the first and references the second:
    the edges of several statements that create the same table add up.  Both
    ends of an edge are nodes of the graph. *)
Theorem build_edges (P : Parser) (queries : list string) (created_table ref_table : string) :
  (ref_table ∈ graph_get (_build_dependency_graph P queries) created_table
   ↔ ∃ query, query ∈ queries
        ∧ created_table ∈ (_extract_tables_from_query P query).1
        ∧ ref_table ∈ (_extract_tables_from_query P query).2)
  ∧ (ref_table ∈ graph_get (_build_dependency_graph P queries) created_table →
     created_table ∈ nodes (_build_dependency_graph P queries)
     ∧ ref_table ∈ nodes (_build_dependency_graph P queries)).
Proof.
  assert (ref_table ∈ graph_get (_build_dependency_graph P queries) created_table
          ↔ ∃ query, query ∈ queries
              ∧ created_table ∈ (_extract_tables_from_query P query).1
              ∧ ref_table ∈ (_extract_tables_from_query P query).2) as Hiff.
  { unfold _build_dependency_graph.
    destruct (build_loop_spec P queries ([], ∅)) as (_ & _ & _ & Hedges).
    destruct (foldl (build_query P) ([], ∅) queries) as [graph all_tables].
    cbn [fst snd] in *. rewrite add_standalone_get, Hedges. simpl.
    split; [|by right]. by intros [?%elem_of_empty|?]. }
  split; [done|]. intros (query & Hq & Hc & Hr)%Hiff.
  rewrite !build_nodes_elem.
  unfold created_by, referenced_by. split; [left|right].
  - apply elem_of_union_list. eexists. split; [|exact Hc].
    apply list_elem_of_fmap. by exists query.
  - apply elem_of_union_list. eexists. split; [|exact Hr].
    apply list_elem_of_fmap. by exists query.
Qed.

Lemma analyze_queries_perm (P : Parser) (queries : list string) :
  ∃ order,
    analyze_queries P queries = Some order
    ∧ order ≡ₚ nodes (_build_dependency_graph P queries).
Proof.
  unfold analyze_queries.
  destruct (_topological_sort (_build_dependency_graph P queries)) as [[order log]|] eqn:Hsort;
    [|by rewrite sort_spec in Hsort].
  apply sort_order_perm in Hsort. by exists order.
Qed.

(** X6.  [analyze_queries] returns every table that a statement of the list
    creates or references, each once, and nothing else. *)
Theorem analyze_queries_tables (P : Parser) (queries : list string) :
  ∃ order,
    analyze_queries P queries = Some order
    ∧ NoDup order
    ∧ ∀ name, name ∈ order
              ↔ name ∈ created_by P queries ∨ name ∈ referenced_by P queries.
Proof.
  destruct (analyze_queries_perm P queries) as (order & Horder & Hperm).
  exists order. split_and!; [done| |].
  - rewrite Hperm. apply build_nodes_NoDup.
  - intros name. rewrite Hperm. apply build_nodes_elem.
Qed.

(** ** The results of the two analysis paths *)

Section ResultFacts.

Variable P : Parser.

Implicit Types (queries : list string).

(** The detail record the large-batch path keeps for a statement that is
    not a CREATE statement. *)
Definition other_detail_of (q : string) : QueryDetail :=
  mkDetail q [] (elements (_extract_tables_from_query P q).2).

Lemma large_other_fold queries details (referenced : gset string) :
  foldl (large_other P) (details, referenced) queries
  = (details ++ take (1000 - length details) (other_detail_of <$> queries),
     referenced ∪ referenced_by P queries).
Proof.
  revert details referenced.
  induction queries as [|q queries IH]; intros details referenced; cbn [foldl].
  - unfold referenced_by. cbn [fmap list_fmap union_list foldr].
    by rewrite take_nil, app_nil_r, (right_id_L ∅ (∪)).
  - assert (large_other P (details, referenced) q
            = (if decide (length details < 1000)
               then details ++ [other_detail_of q] else details,
               referenced ∪ (_extract_tables_from_query P q).2)) as ->.
    { unfold large_other, other_detail_of.
      by destruct (_extract_tables_from_query P q). }
    rewrite IH. unfold referenced_by. rewrite !fmap_cons, union_list_cons, (assoc_L (∪)).
    f_equal. case_decide as Hlen.
    + rewrite length_app. cbn [length].
      replace (1000 - length details) with (S (1000 - (length details + 1))) by lia.
      by rewrite <-app_assoc.
    + replace (1000 - length details) with 0 by lia. done.
Qed.

Lemma fmap_detail_query queries : query <$> (detail_of P <$> queries) = queries.
Proof. induction queries as [|q queries IH]; [done|]. rewrite !fmap_cons. by f_equal. Qed.

End ResultFacts.

Lemma standard_result_counts (P : Parser) (queries : list string) (r : BatchResult) :
  analyze_standard P queries = Some r →
  query_details r = detail_of P <$> queries
  ∧ total_queries r = length queries
  ∧ total_tables r = length (table_creation_order r).
Proof.
  rewrite analyze_standard_spec.
  destruct (analyze_queries_perm P queries) as (order & -> & Hperm).
  intros [= <-].
  cbn [total_queries query_details table_creation_order total_tables].
  split_and!; [done|done|].
  rewrite <-size_union_alt, Hperm.
  rewrite <-(size_list_to_set (C:=gset string)) by apply build_nodes_NoDup.
  f_equal. apply set_eq. intros name.
  by rewrite elem_of_union, elem_of_list_to_set, build_nodes_elem.
Qed.

(** X7.  The result of the regular path is consistent: it counts every
    statement and has a detail record, with the statement's own tables, for
    each of them in order; the external dependencies are the tables that are
    referenced and never created; every one of them is in the creation
    order; and [total_tables] is the length of the creation order. *)
Theorem standard_result_consistent (P : Parser) (queries : list string) :
  ∃ r,
    analyze_standard P queries = Some r
    ∧ total_queries r = length queries
    ∧ query_details r = detail_of P <$> queries
    ∧ query <$> query_details r = queries
    ∧ NoDup (external_dependencies r)
    ∧ (∀ name, name ∈ external_dependencies r
               ↔ name ∈ referenced_by P queries ∧ name ∉ created_by P queries)
    ∧ (∀ name, name ∈ external_dependencies r → name ∈ table_creation_order r)
    ∧ total_tables r = length (table_creation_order r).
Proof.
  destruct (analyze_standard P queries) as [r|] eqn:Hr.
  2: { rewrite analyze_standard_spec in Hr.
       by destruct (analyze_queries_perm P queries) as (order & Horder & _);
         rewrite Horder in Hr. }
  destruct (standard_result_counts P queries r Hr) as (Hdetails & Hcount & Htables).
  exists r. rewrite analyze_standard_spec in Hr.
  destruct (analyze_queries_perm P queries) as (order & Horder & Hperm).
  rewrite Horder in Hr. injection Hr as <-.
  cbn [total_queries query_details external_dependencies table_creation_order total_tables]
    in *.
  split_and!; [done|done|done|apply fmap_detail_query|apply NoDup_elements| | |done].
  - intros name. by rewrite elem_of_elements, elem_of_difference.
  - intros name. rewrite elem_of_elements, elem_of_difference, Hperm, build_nodes_elem. tauto.
Qed.

Lemma large_result_note (P : Parser) (queries : list string) (r : BatchResult) :
  _analyze_large_batch P queries = Some r → note r = Some large_batch_note.
Proof.
  unfold _analyze_large_batch.
  destruct (foldl (large_create P) _ _) as [create_details all_created_tables].
  destruct (foldl (large_other P) _ _) as [other_details all_referenced_tables].
  destruct (analyze_queries P _); [|done]. by intros [= <-].
Qed.

(** X8.  The result of the large-batch path counts every statement, carries
    the note and the number of tables the CREATE statements create, and
    keeps a detail record for every CREATE statement followed by records,
    without created tables, for the first 1000 other statements. *)
Theorem large_result_details (P : Parser) (queries : list string) :
  let creates := filter (λ q, Splitter.is_create_statement q = true) queries in
  let others := filter (λ q, Splitter.is_create_statement q ≠ true) queries in
  ∃ r,
    _analyze_large_batch P queries = Some r
    ∧ total_queries r = length queries
    ∧ note r = Some large_batch_note
    ∧ created_tables r = Some (size (created_by P creates))
    ∧ query_details r
      = (detail_of P <$> creates) ++ take 1000 (other_detail_of P <$> others)
    ∧ length (query_details r) ≤ length creates + 1000.
Proof.
  intros creates others. unfold _analyze_large_batch.
  fold creates. fold others.
  rewrite large_create_fold, large_other_fold, !(left_id_L ∅ (∪)).
  cbn [app length]. rewrite Nat.sub_0_r.
  destruct (analyze_queries_total P
              (critical_queries P creates others (created_by P creates))) as [order ->].
  eexists. split; [done|].
  cbn [total_queries note created_tables query_details].
  assert (take (1000 `min` length (take 1000 (other_detail_of P <$> others)))
            (take 1000 (other_detail_of P <$> others))
          = take 1000 (other_detail_of P <$> others)) as ->.
  { apply take_ge. rewrite length_take. lia. }
  split_and!; try done.
  rewrite length_app, length_fmap, length_take. lia.
Qed.

(** X9.  In the result of the large-batch path the external dependencies are
    the tables that a statement other than a CREATE statement references and
    that no CREATE statement creates; [total_tables] adds their number to the
    number of tables the CREATE statements create. *)
Theorem large_result_external (P : Parser) (queries : list string) :
  let creates := filter (λ q, Splitter.is_create_statement q = true) queries in
  let others := filter (λ q, Splitter.is_create_statement q ≠ true) queries in
  ∃ r,
    _analyze_large_batch P queries = Some r
    ∧ NoDup (external_dependencies r)
    ∧ (∀ name, name ∈ external_dependencies r
               ↔ name ∈ referenced_by P others ∧ name ∉ created_by P creates)
    ∧ total_tables r
      = size (created_by P creates) + length (external_dependencies r).
Proof.
  intros creates others. unfold _analyze_large_batch.
  fold creates. fold others.
  rewrite large_create_fold, large_other_fold, !(left_id_L ∅ (∪)).
  destruct (analyze_queries_total P
              (critical_queries P creates others (created_by P creates))) as [order ->].
  eexists. split; [done|].
  cbn [external_dependencies total_tables].
  split_and!; [apply NoDup_elements| |done].
  intros name. by rewrite elem_of_elements, elem_of_difference.
Qed.

(** X10.  A result of [analyze_batch] that carries no note has a detail
    record for every statement the batch was split into, in order, and its
    [total_tables] is the length of its creation order. *)
Theorem unflagged_result_complete (P : Parser) (sql_batch : string) (r : BatchResult) :
  analyze_batch P sql_batch = Some r →
  note r = None →
  query <$> query_details r = split_batch_queries P sql_batch
  ∧ total_queries r = length (split_batch_queries P sql_batch)
  ∧ total_tables r = length (table_creation_order r).
Proof.
  unfold analyze_batch. case_decide as Hlen.
  - intros Hr%large_result_note Hnone. congruence.
  - intros (Hdetails & Hcount & Htables)%standard_result_counts _.
    split_and!; [|done|done]. rewrite Hdetails. apply fmap_detail_query.
Qed.

Lemma unflagged_result_complete_witness :
  ∃ r,
    analyze_batch Demo.parser "CREATE TABLE b AS SELECT * FROM a; SELECT * FROM x"
    = Some r
    ∧ query <$> query_details r = ["CREATE TABLE b AS SELECT * FROM a"; "SELECT * FROM x"]
    ∧ total_tables r = length (table_creation_order r).
Proof.
  destruct (analyze_batch Demo.parser "CREATE TABLE b AS SELECT * FROM a; SELECT * FROM x")
    as [r|] eqn:Hr; [|by vm_compute in Hr].
  exists r. split; [done|].
  destruct (unflagged_result_complete Demo.parser
              "CREATE TABLE b AS SELECT * FROM a; SELECT * FROM x" r Hr) as (Hq & _ & Ht).
  - vm_compute in Hr. by injection Hr as <-.
  - split; [|done]. rewrite Hq. vm_compute. reflexivity.
Defined.

(** ** The names the extractor returns *)

Section NameFacts.

Variable P : Parser.

Implicit Types (query name : string) (e : Expression).

Lemma extract_fold_created (es : list Expression) acc name :
  name ∈ (foldl extract_expression acc es).1.1 →
  name ∈ acc.1.1
  ∨ ∃ e t, e ∈ es ∧ expr_create e = Some t ∧ name = qualified_name t.
Proof.
  revert acc. induction es as [|e es IH]; intros [[created referenced] ctes]; simpl;
    [by left|].
  intros [Hin|(e' & t & ? & ? & ?)]%IH.
  - simpl in Hin. destruct (expr_create e) as [t|] eqn:He; [|by left].
    apply elem_of_union in Hin as [?|Heq%elem_of_singleton]; [by left|right].
    exists e, t. split_and!; [left|done|done].
  - right. exists e', t. split_and!; [by right|done|done].
Qed.

Lemma lower_empty (s : string) : PyStr.lower s = "" → s = "".
Proof. by destruct s. Qed.

Lemma qualified_name_case (t1 t2 : Table) :
  PyStr.lower (table_name t1) = PyStr.lower (table_name t2) →
  PyStr.lower (table_db t1) = PyStr.lower (table_db t2) →
  qualified_name t1 = qualified_name t2.
Proof.
  intros Hname Hdb. unfold qualified_name.
  destruct (decide (table_db t1 = "")) as [H1|H1], (decide (table_db t2 = "")) as [H2|H2].
  - done.
  - rewrite H1 in Hdb. symmetry in Hdb. by apply lower_empty in Hdb.
  - rewrite H2 in Hdb. by apply lower_empty in Hdb.
  - by rewrite Hname, Hdb.
Qed.

End NameFacts.

(** X11.  Every name the extractor returns is one the parser found: a created
    name is the qualified name of the target of a CREATE statement of the
    text, a referenced name that of one of its table nodes.  All of them are
    in lower case. *)
Theorem extracted_names_canonical (P : Parser) (query name : string) :
  (name ∈ (_extract_tables_from_query P query).1 →
   ∃ es e t, parse P query = Some es ∧ e ∈ es
             ∧ expr_create e = Some t ∧ name = qualified_name t)
  ∧ (name ∈ (_extract_tables_from_query P query).2 →
     ∃ es e t, parse P query = Some es ∧ e ∈ es
               ∧ t ∈ expr_tables e ∧ name = qualified_name t)
  ∧ (name ∈ (_extract_tables_from_query P query).1
     ∨ name ∈ (_extract_tables_from_query P query).2 →
     PyStr.lower name = name).
Proof.
  assert ((name ∈ (_extract_tables_from_query P query).1 →
           ∃ es e t, parse P query = Some es ∧ e ∈ es
                     ∧ expr_create e = Some t ∧ name = qualified_name t)
          ∧ (name ∈ (_extract_tables_from_query P query).2 →
             ∃ es e t, parse P query = Some es ∧ e ∈ es
                       ∧ t ∈ expr_tables e ∧ name = qualified_name t)) as [Hc Hr].
  { unfold _extract_tables_from_query.
    destruct (parse P query) as [es|] eqn:Hparse; [|split; by intros ?%elem_of_empty].
    destruct (foldl extract_expression (∅, ∅, ∅) es) as [[created referenced] ctes] eqn:Hfold.
    cbn [fst snd]. split.
    - intros Hin.
      destruct (extract_fold_created es (∅, ∅, ∅) name) as [?%elem_of_empty|(e & t & ? & ? & ?)];
        [by rewrite Hfold|done|].
      by exists es, e, t.
    - intros [Hin _]%elem_of_difference.
      destruct (extract_fold_origin es (∅, ∅, ∅) name)
        as [?%elem_of_empty|(e & n & He & Hn & ->)]; [by rewrite Hfold|done|].
      unfold _get_table_references in Hn.
      apply elem_of_list_to_set, list_elem_of_fmap in Hn as (t & -> & Ht).
      exists es, e, t. by rewrite qualified_name_lower. }
  split_and!; [done|done|].
  intros [(? & ? & t & _ & _ & _ & ->)%Hc|(? & ? & t & _ & _ & _ & ->)%Hr];
    apply qualified_name_lower.
Qed.



(** X13.  Table nodes that differ only in the case of their name and of
    their database give the same references: two spellings of one table are
    one name. *)
Theorem table_references_ignore_case (e1 e2 : Expression) :
  Forall2 (λ t1 t2, PyStr.lower (table_name t1) = PyStr.lower (table_name t2)
                    ∧ PyStr.lower (table_db t1) = PyStr.lower (table_db t2))
          (expr_tables e1) (expr_tables e2) →
  _get_table_references e1 = _get_table_references e2.
Proof.
  intros Hcase. unfold _get_table_references. f_equal.
  induction Hcase as [|t1 t2 l1 l2 [Hname Hdb] _ IH]; [done|].
  rewrite !fmap_cons. f_equal; [by apply qualified_name_case|done].
Qed.

Lemma table_references_ignore_case_witness :
  _get_table_references (mkExpression [] None [mkTable "Users" "Main"])
  = _get_table_references (mkExpression [] None [mkTable "USERS" "main"]).
Proof.
  apply table_references_ignore_case. simpl.
  repeat constructor; vm_compute; reflexivity.
Defined.

(** ** Strings *)

Section StringFacts.

Implicit Types (s : string) (c : ascii).

Lemma append_nil_r s : s +:+ "" = s.
Proof. induction s as [|c s IH]; [done|]. by rewrite append_cons, IH. Qed.

Lemma append_assoc s1 s2 s3 : (s1 +:+ s2) +:+ s3 = s1 +:+ s2 +:+ s3.
Proof. induction s1 as [|c s1 IH]; [done|]. by rewrite !append_cons, IH. Qed.

Lemma length_append s1 s2 :
  String.length (s1 +:+ s2) = String.length s1 + String.length s2.
Proof. induction s1 as [|c s1 IH]; [done|]. rewrite append_cons. simpl. by rewrite IH. Qed.

Lemma rev_app_append s1 s2 : String.rev_app s1 s2 = String.rev s1 +:+ s2.
Proof.
  unfold String.rev. revert s2. induction s1 as [|c s1 IH]; intros s2; simpl; [done|].
  by rewrite IH, (IH (String c "")), append_assoc.
Qed.

Lemma rev_cons c s : String.rev (String c s) = String.rev s +:+ String c "".
Proof. unfold String.rev at 1. simpl. apply rev_app_append. Qed.

Lemma rev_append s1 s2 : String.rev (s1 +:+ s2) = String.rev s2 +:+ String.rev s1.
Proof.
  induction s1 as [|c s1 IH].
  - by rewrite append_nil_r.
  - by rewrite append_cons, !rev_cons, IH, append_assoc.
Qed.

Lemma rev_involutive s : String.rev (String.rev s) = s.
Proof.
  induction s as [|c s IH]; [done|]. by rewrite rev_cons, rev_append, IH.
Qed.

Lemma lstrip_idemp s : PyStr.lstrip (PyStr.lstrip s) = PyStr.lstrip s.
Proof.
  induction s as [|c s IH]; [done|]. simpl.
  destruct (PyStr.isspace c) eqn:Hc; [done|]. simpl. by rewrite Hc.
Qed.

Lemma lstrip_head s c rest : PyStr.lstrip s = String c rest → PyStr.isspace c = false.
Proof.
  induction s as [|c' s IH]; [done|]. simpl.
  destruct (PyStr.isspace c') eqn:Hc; [done|]. by intros [= <- _].
Qed.

Lemma lstrip_append s c rest :
  PyStr.isspace c = false →
  PyStr.lstrip (s +:+ String c rest) = PyStr.lstrip s +:+ String c rest.
Proof.
  intros Hc. induction s as [|c' s IH].
  - simpl. by rewrite Hc.
  - rewrite append_cons. simpl. by destruct (PyStr.isspace c').
Qed.

Lemma rstrip_cons c s :
  PyStr.isspace c = false → PyStr.rstrip (String c s) = String c (PyStr.rstrip s).
Proof.
  intros Hc. unfold PyStr.rstrip.
  by rewrite rev_cons, lstrip_append, rev_append by done.
Qed.

Lemma rstrip_snoc s c :
  PyStr.isspace c = false → PyStr.rstrip (s +:+ String c "") = s +:+ String c "".
Proof.
  intros Hc. unfold PyStr.rstrip. rewrite rev_append. change (String.rev (String c "")) with (String c "").
  rewrite append_cons. simpl. rewrite Hc.
  change (String c ("" +:+ String.rev s)) with (String c "" +:+ String.rev s).
  by rewrite rev_append, rev_involutive.
Qed.

Lemma rstrip_idemp s : PyStr.rstrip (PyStr.rstrip s) = PyStr.rstrip s.
Proof. unfold PyStr.rstrip. by rewrite rev_involutive, lstrip_idemp. Qed.

(** Trimming a trimmed string changes nothing. *)
Lemma strip_idemp s : PyStr.strip (PyStr.strip s) = PyStr.strip s.
Proof.
  unfold PyStr.strip. destruct (PyStr.lstrip s) as [|c rest] eqn:Hs; [done|].
  pose proof (lstrip_head _ _ _ Hs) as Hc.
  rewrite rstrip_cons by done. simpl. rewrite Hc.
  by rewrite rstrip_cons, rstrip_idemp.
Qed.

Lemma nonblank_strip s : PyStr.nonblank s = true ↔ PyStr.strip s ≠ "".
Proof. unfold PyStr.nonblank. by destruct (PyStr.strip s). Qed.

(** A statement as the splitters return it: not empty, without white space
    at either end. *)
Definition trimmed s : Prop := s ≠ "" ∧ PyStr.strip s = s.

Lemma flush_trimmed (queries : list string) s :
  Forall trimmed queries → Forall trimmed (Splitter.flush queries s).
Proof.
  intros Hall. unfold Splitter.flush.
  destruct (PyStr.nonblank s) eqn:Hs; [|done].
  apply Forall_app. split; [done|]. apply Forall_singleton. split.
  - by apply nonblank_strip.
  - apply strip_idemp.
Qed.

End StringFacts.

(** ** What the splitters return *)

Section SplitterResults.

Import Splitter.

Implicit Types (st : ScanState) (s buffer : string) (queries : list string).

Lemma scan_char_trimmed st char :
  Forall trimmed (Splitter.queries st) → Forall trimmed (Splitter.queries (scan_char st char)).
Proof.
  intros Hall. unfold scan_char.
  repeat (case_match; simpl; try done). by apply flush_trimmed.
Qed.

Lemma scan_trimmed st s :
  Forall trimmed (Splitter.queries st) → Forall trimmed (Splitter.queries (scan st s)).
Proof.
  revert st. induction s as [|c s IH]; intros st Hall; simpl; [done|].
  by apply IH, scan_char_trimmed.
Qed.

Lemma drain_trimmed fuel buffer queries :
  Forall trimmed queries → Forall trimmed (drain fuel buffer queries).2.
Proof.
  revert buffer queries. induction fuel as [|fuel IH]; intros buffer queries Hall; simpl;
    [done|].
  destruct (PyStr.find ";" buffer) as [pos|]; [|done].
  apply IH. case_match; [by apply flush_trimmed|done].
Qed.

Lemma feed_trimmed (chunks : list string) (st : string * list string) :
  Forall trimmed st.2 → Forall trimmed (foldl feed st chunks).2.
Proof.
  revert st. induction chunks as [|chunk chunks IH]; intros [buffer queries] Hall;
    cbn [foldl]; [done|].
  apply IH. unfold feed. by apply drain_trimmed.
Qed.

Lemma stream_split_trimmed size s : Forall trimmed (stream_split size s).
Proof.
  unfold stream_split.
  pose proof (feed_trimmed (chunks_of size s) ("", []) (Forall_nil_2 _)) as Hall.
  destruct (foldl feed ("", []) (chunks_of size s)) as [buffer queries].
  by apply flush_trimmed.
Qed.

End SplitterResults.

Lemma split_with_regex_Forall_trimmed (sql_batch : string) :
  Forall trimmed (Splitter._split_with_regex sql_batch).
Proof.
  unfold Splitter._split_with_regex, Splitter.finish.
  apply flush_trimmed, scan_trimmed. constructor.
Qed.

(** X14.  Every statement the character scan returns is non-empty and has
    no white space at its start or at its end. *)
Theorem split_with_regex_trimmed (sql_batch q : string) :
  q ∈ Splitter._split_with_regex sql_batch → q ≠ "" ∧ PyStr.strip q = q.
Proof.
  intros Hq. pose proof (split_with_regex_Forall_trimmed sql_batch) as Hall.
  rewrite Forall_forall in Hall. by apply Hall.
Qed.

Lemma split_with_regex_trimmed_witness :
  "SELECT 1;" ≠ "" ∧ PyStr.strip "SELECT 1;" = "SELECT 1;".
Proof.
  apply (split_with_regex_trimmed "  SELECT 1;  SELECT 2  ").
  apply (bool_decide_unpack _). vm_compute. exact I.
Defined.

(** X15.  Every statement the streaming splitter returns, and so every
    statement [_process_large_batch] returns, is non-empty and has no white
    space at its start or at its end. *)
Theorem large_batch_statements_trimmed (sql_batch q : string) :
  q ∈ Splitter._stream_split_queries sql_batch ∨ q ∈ Splitter._process_large_batch sql_batch →
  q ≠ "" ∧ PyStr.strip q = q.
Proof.
  assert (Forall trimmed (Splitter._stream_split_queries sql_batch)) as Hstream
    by apply stream_split_trimmed.
  rewrite Forall_forall in Hstream.
  intros [Hq|Hq]; [by apply Hstream|].
  unfold Splitter._process_large_batch in Hq. case_decide; [by apply Hstream|].
  pose proof (split_with_regex_Forall_trimmed sql_batch) as Hall.
  rewrite Forall_forall in Hall. by apply Hall.
Qed.

Lemma large_batch_statements_trimmed_witness :
  "SELECT 1;" ≠ "" ∧ PyStr.strip "SELECT 1;" = "SELECT 1;".
Proof.
  apply (large_batch_statements_trimmed "  SELECT 1;  SELECT 2  ").
  left. apply (bool_decide_unpack _). vm_compute. exact I.
Defined.

(** ** Chunks and the buffer of the streaming splitter *)

Section StreamFacts.

Import Splitter.

Implicit Types (s buffer chunk : string) (c : ascii) (queries : list string).

(** [''.join(l)] *)
Definition concat_strings (l : list string) : string := foldr String.append "" l.

Lemma take_drop n s : PyStr.take n s +:+ PyStr.drop n s = s.
Proof.
  unfold PyStr.take. revert s. induction n as [|n IH]; intros [|c s]; simpl; try done.
  rewrite append_cons. by rewrite IH.
Qed.

Lemma length_take n s : String.length (PyStr.take n s) ≤ n.
Proof.
  unfold PyStr.take. revert s. induction n as [|n IH]; intros [|c s]; simpl; try lia.
  specialize (IH s). lia.
Qed.

Lemma length_drop n s : String.length (PyStr.drop n s) = String.length s - n.
Proof. revert s. induction n as [|n IH]; intros [|c s]; simpl; try done. Qed.

Lemma drop_drop n m s : PyStr.drop n (PyStr.drop m s) = PyStr.drop (m + n) s.
Proof.
  revert s. induction m as [|m IH]; intros s; simpl; [done|].
  destruct s as [|c s]; [by destruct n|]. apply IH.
Qed.

Lemma substring_take_drop n m s : String.substring n m s = PyStr.take m (PyStr.drop n s).
Proof.
  unfold PyStr.take. revert s. induction n as [|n IH]; intros s.
  - by destruct s.
  - destruct s as [|c s]; simpl; [by destruct m|]. apply IH.
Qed.

Lemma chunks_concat size (count : nat) s :
  String.length s ≤ count * size →
  concat_strings ((λ k, PyStr.take size (PyStr.drop (k * size) s)) <$> seq 0 count) = s.
Proof.
  revert s. induction count as [|count IH]; intros s Hlen.
  - by destruct s; [|simpl in Hlen; lia].
  - assert ((λ k, PyStr.take size (PyStr.drop (k * size) s)) <$> seq 0 (S count)
            = PyStr.take size s
              :: ((λ k, PyStr.take size (PyStr.drop (k * size) (PyStr.drop size s)))
                    <$> seq 0 count)) as ->.
    { cbn [seq]. rewrite fmap_cons. f_equal. rewrite <-fmap_S_seq, <-list_fmap_compose.
      apply list_fmap_ext. intros _ k _. simpl. by rewrite drop_drop. }
    cbn [concat_strings foldr].
    fold (concat_strings
            ((λ k, PyStr.take size (PyStr.drop (k * size) (PyStr.drop size s))) <$> seq 0 count)).
    rewrite IH by (rewrite length_drop; simpl in Hlen; lia).
    apply take_drop.
Qed.

Lemma chunks_of_spec size s :
  0 < size → concat_strings (chunks_of size s) = s.
Proof.
  intros Hsize. unfold chunks_of.
  rewrite (list_fmap_ext _ (λ k, PyStr.take size (PyStr.drop (k * size) s)))
    by (intros; apply substring_take_drop).
  apply chunks_concat.
  pose proof (Nat.div_mod_eq (String.length s + size - 1) size) as Hdiv.
  pose proof (Nat.mod_upper_bound (String.length s + size - 1) size ltac:(lia)) as Hmod.
  nia.
Qed.

End StreamFacts.

(** X18.  The chunks of a batch, for a positive chunk size, are each at most
    that long and put together give the batch back. *)
Theorem chunks_cover_batch (size : nat) (sql_batch : string) :
  0 < size →
  concat_strings (Splitter.chunks_of size sql_batch) = sql_batch
  ∧ Forall (λ chunk, String.length chunk ≤ size) (Splitter.chunks_of size sql_batch).
Proof.
  intros Hsize. split; [by apply chunks_of_spec|].
  unfold Splitter.chunks_of. apply Forall_fmap, Forall_forall. intros k _. simpl.
  rewrite substring_take_drop. apply length_take.
Qed.

Lemma chunks_cover_batch_witness :
  concat_strings (Splitter.chunks_of 3 "SELECT 1;") = "SELECT 1;"
  ∧ Forall (λ chunk, String.length chunk ≤ 3) (Splitter.chunks_of 3 "SELECT 1;").
Proof. apply (chunks_cover_batch 3 "SELECT 1;"). lia. Defined.

(** ** Draining the buffer *)

Section DrainFacts.

Import Splitter.

Implicit Types (s buffer chunk x : string) (c : ascii) (queries : list string).

(** One round of the inner loop of the streaming splitter, for a buffer cut
    into [query] and the rest. *)
Definition keep_valid queries (query : string) : list string :=
  if _is_valid_query_boundary query then flush queries query else queries.

(** The inner loop, with fuel to spare. *)
Definition drain_all buffer queries : string * list string :=
  drain (S (String.length buffer)) buffer queries.

Lemma find_drop_length c s pos :
  PyStr.find c s = Some pos → String.length (PyStr.drop (pos + 1) s) < String.length s.
Proof.
  rewrite Nat.add_1_r. revert pos. induction s as [|c' s IH]; intros pos Hfind; [done|].
  simpl in Hfind. case_decide.
  - injection Hfind as <-. simpl. lia.
  - destruct (PyStr.find c s) as [pos'|]; [|done]. injection Hfind as <-.
    specialize (IH pos' eq_refl).
    change (String.length (PyStr.drop (S pos') s) < S (String.length s)). lia.
Qed.

Lemma drain_fuel fuel1 fuel2 buffer queries :
  String.length buffer < fuel1 → String.length buffer < fuel2 →
  drain fuel1 buffer queries = drain fuel2 buffer queries.
Proof.
  revert fuel2 buffer queries.
  induction fuel1 as [|fuel1 IH]; intros [|fuel2] buffer queries H1 H2; try lia.
  simpl. destruct (PyStr.find ";" buffer) as [pos|] eqn:Hfind; [|done].
  pose proof (find_drop_length _ _ _ Hfind). apply IH; lia.
Qed.

Lemma drain_all_unfold buffer queries :
  drain_all buffer queries =
  match PyStr.find ";" buffer with
  | None => (buffer, queries)
  | Some pos =>
      drain_all (PyStr.drop (pos + 1) buffer)
        (keep_valid queries (PyStr.take (pos + 1) buffer))
  end.
Proof.
  unfold drain_all at 1. cbn [drain].
  destruct (PyStr.find ";" buffer) as [pos|] eqn:Hfind; [|done].
  pose proof (find_drop_length _ _ _ Hfind). unfold drain_all, keep_valid.
  apply drain_fuel; lia.
Qed.

Lemma find_append c s x pos :
  PyStr.find c s = Some pos →
  PyStr.find c (s +:+ x) = Some pos
  ∧ PyStr.take (pos + 1) (s +:+ x) = PyStr.take (pos + 1) s
  ∧ PyStr.drop (pos + 1) (s +:+ x) = PyStr.drop (pos + 1) s +:+ x.
Proof.
  rewrite Nat.add_1_r. unfold PyStr.take.
  revert pos. induction s as [|c' s IH]; intros pos; [done|].
  rewrite append_cons. simpl. case_decide.
  - intros [= <-]. simpl. split_and!; [done| |done]. by destruct (s +:+ x), s.
  - destruct (PyStr.find c s) as [pos'|]; [|done]. intros [= <-].
    destruct (IH pos' eq_refl) as (-> & Htake & Hdrop). simpl in *.
    by rewrite Htake, Hdrop.
Qed.

(** Draining a buffer, then what is left with more text behind it, is
    draining the buffer with the text behind it. *)
Lemma drain_all_append x buffer queries :
  drain_all (buffer +:+ x) queries
  = drain_all ((drain_all buffer queries).1 +:+ x) (drain_all buffer queries).2.
Proof.
  remember (String.length buffer) as n eqn:Hn.
  revert buffer queries Hn. induction (lt_wf n) as [n _ IH]; intros buffer queries ->.
  rewrite (drain_all_unfold buffer).
  destruct (PyStr.find ";" buffer) as [pos|] eqn:Hfind; [|done].
  rewrite (drain_all_unfold (buffer +:+ x)).
  destruct (find_append _ _ x _ Hfind) as (-> & -> & ->).
  eapply IH; [|done]. by apply (find_drop_length ";").
Qed.

Lemma drain_all_stable buffer queries :
  drain_all (drain_all buffer queries).1 (drain_all buffer queries).2
  = drain_all buffer queries.
Proof.
  pose proof (drain_all_append "" buffer queries) as Happ.
  by rewrite !append_nil_r in Happ.
Qed.

Lemma feed_drain_all (chunks : list string) buffer queries :
  foldl feed (drain_all buffer queries) chunks
  = drain_all (buffer +:+ concat_strings chunks) queries.
Proof.
  revert buffer queries. induction chunks as [|chunk chunks IH]; intros buffer queries.
  - simpl. by rewrite append_nil_r.
  - cbn [foldl concat_strings foldr].
    assert (feed (drain_all buffer queries) chunk = drain_all (buffer +:+ chunk) queries) as ->.
    { rewrite (drain_all_append chunk buffer).
      by destruct (drain_all buffer queries). }
    rewrite IH. by rewrite append_assoc.
Qed.

Lemma stream_split_spec size s :
  0 < size →
  stream_split size s = flush (drain_all s []).2 (drain_all s []).1.
Proof.
  intros Hsize. unfold stream_split.
  change ("", []) with (drain_all "" []).
  rewrite feed_drain_all, chunks_of_spec by done.
  change ("" +:+ s) with s. by destruct (drain_all s []).
Qed.

End DrainFacts.

(** X17.  The chunk size does not change what the streaming splitter
    returns: for every positive size the result is that of draining the
    whole batch as one buffer and flushing what is left. *)
Theorem stream_split_chunk_independent (size : nat) (sql_batch : string) :
  0 < size →
  Splitter.stream_split size sql_batch
  = Splitter.flush
      (Splitter.drain (S (String.length sql_batch)) sql_batch []).2
      (Splitter.drain (S (String.length sql_batch)) sql_batch []).1
  ∧ Splitter.stream_split size sql_batch = Splitter._stream_split_queries sql_batch.
Proof.
  intros Hsize. split; [by apply stream_split_spec|].
  unfold Splitter._stream_split_queries.
  rewrite !stream_split_spec; [done| |done]. unfold Splitter.chunk_size. lia.
Qed.

Lemma stream_split_chunk_independent_witness :
  Splitter.stream_split 4 "SELECT 1; SELECT (2;3); x"
  = Splitter._stream_split_queries "SELECT 1; SELECT (2;3); x".
Proof. apply (stream_split_chunk_independent 4 "SELECT 1; SELECT (2;3); x"). lia. Defined.

(** ** Semicolons in the output of the streaming splitter *)

Section SemicolonFacts.

Import Splitter.

Implicit Types (s buffer p : string) (c : ascii) (queries : list string).

Lemma count_append c s1 s2 :
  PyStr.count c (s1 +:+ s2) = PyStr.count c s1 + PyStr.count c s2.
Proof.
  induction s1 as [|c' s1 IH]; [done|]. rewrite append_cons. simpl. rewrite IH. lia.
Qed.

Lemma count_rev c s : PyStr.count c (String.rev s) = PyStr.count c s.
Proof.
  induction s as [|c' s IH]; [done|]. rewrite rev_cons, count_append, IH. simpl. lia.
Qed.

Lemma count_lstrip c s : PyStr.count c (PyStr.lstrip s) ≤ PyStr.count c s.
Proof.
  induction s as [|c' s IH]; [done|]. simpl.
  destruct (PyStr.isspace c'); simpl; lia.
Qed.

Lemma count_strip c s : PyStr.count c (PyStr.strip s) ≤ PyStr.count c s.
Proof.
  unfold PyStr.strip, PyStr.rstrip. rewrite count_rev.
  etrans; [apply count_lstrip|]. rewrite count_rev. apply count_lstrip.
Qed.

Lemma find_None_count c s : PyStr.find c s = None → PyStr.count c s = 0.
Proof.
  induction s as [|c' s IH]; [done|]. simpl. case_decide; [done|].
  destruct (PyStr.find c s); [done|]. intros _. by rewrite IH.
Qed.

Lemma find_Some_take c s pos :
  PyStr.find c s = Some pos →
  ∃ p, PyStr.take (pos + 1) s = p +:+ String c "" ∧ PyStr.count c p = 0.
Proof.
  rewrite Nat.add_1_r. unfold PyStr.take.
  revert pos. induction s as [|c' s IH]; intros pos Hfind; [done|].
  simpl in Hfind. case_decide as Hc.
  - injection Hfind as <-. subst c'. exists "". split; [|done]. simpl. by destruct s.
  - destruct (PyStr.find c s) as [pos'|]; [|done]. injection Hfind as <-.
    destruct (IH pos' eq_refl) as (p & Htake & Hcount).
    exists (String c' p). split.
    + rewrite append_cons. simpl in *. by rewrite Htake.
    + simpl. by rewrite decide_False, Hcount.
Qed.

Lemma strip_semicolon p :
  PyStr.strip (p +:+ String ";" "") = PyStr.lstrip p +:+ String ";" "".
Proof. unfold PyStr.strip. by rewrite lstrip_append, rstrip_snoc. Qed.

(** A statement with no semicolon but, possibly, its last character. *)
Definition semicolon_last s : Prop :=
  PyStr.count ";" s = 0 ∨ ∃ p, s = p +:+ String ";" "" ∧ PyStr.count ";" p = 0.

Lemma keep_valid_semicolon queries buffer pos :
  PyStr.find ";" buffer = Some pos →
  Forall semicolon_last queries →
  Forall semicolon_last (keep_valid queries (PyStr.take (pos + 1) buffer)).
Proof.
  intros Hfind Hall. unfold keep_valid, flush. repeat case_match; try done.
  apply Forall_app. split; [done|]. apply Forall_singleton. right.
  destruct (find_Some_take _ _ _ Hfind) as (p & -> & Hcount).
  exists (PyStr.lstrip p). split; [apply strip_semicolon|].
  pose proof (count_lstrip ";" p). lia.
Qed.

Lemma drain_all_semicolon buffer queries :
  Forall semicolon_last queries →
  PyStr.find ";" (drain_all buffer queries).1 = None
  ∧ Forall semicolon_last (drain_all buffer queries).2.
Proof.
  remember (String.length buffer) as n eqn:Hn.
  revert buffer queries Hn. induction (lt_wf n) as [n _ IH]; intros buffer queries -> Hall.
  rewrite drain_all_unfold.
  destruct (PyStr.find ";" buffer) as [pos|] eqn:Hfind; [|done].
  eapply IH; [by apply (find_drop_length ";")|done|].
  by apply keep_valid_semicolon.
Qed.

Lemma stream_split_semicolons size s :
  0 < size → Forall semicolon_last (stream_split size s).
Proof.
  intros Hsize. rewrite stream_split_spec by done.
  destruct (drain_all_semicolon s [] (Forall_nil_2 _)) as [Hbuffer Hall].
  unfold flush. case_match; [|done].
  apply Forall_app. split; [done|]. apply Forall_singleton. left.
  pose proof (count_strip ";" (drain_all s []).1).
  pose proof (find_None_count _ _ Hbuffer). lia.
Qed.

End SemicolonFacts.

(** X20.  In a statement the streaming splitter returns, a semicolon can
    only be the last character: the splitter cuts at every semicolon, so a
    statement with a semicolon inside a literal or inside parentheses is
    never returned whole. *)
Theorem stream_split_semicolon_last (sql_batch q : string) :
  q ∈ Splitter._stream_split_queries sql_batch →
  PyStr.count ";" q = 0
  ∨ ∃ p, q = p +:+ String ";" "" ∧ PyStr.count ";" p = 0.
Proof.
  intros Hq.
  assert (Forall semicolon_last (Splitter._stream_split_queries sql_batch)) as Hall.
  { apply stream_split_semicolons. unfold Splitter.chunk_size. lia. }
  rewrite Forall_forall in Hall. by apply Hall.
Qed.

Lemma stream_split_semicolon_last_witness :
  PyStr.count ";" "SELECT 1;" = 0
  ∨ ∃ p, "SELECT 1;" = p +:+ String ";" "" ∧ PyStr.count ";" p = 0.
Proof.
  apply (stream_split_semicolon_last "INSERT INTO t VALUES ('a;b'); SELECT 1;").
  apply (bool_decide_unpack _). vm_compute. exact I.
Defined.

(** ** The two splitters on plain text *)

Section PlainFacts.

Import Splitter.

Implicit Types (s buffer cur : string) (c : ascii) (queries : list string).

(** A character that is no quote, no parenthesis, no dash and no slash. *)
Definition plain_char c : bool :=
  negb (is_quote c) && negb (bool_decide (c = "("%char))
  && negb (bool_decide (c = ")"%char)) && negb (bool_decide (c = "-"%char))
  && negb (bool_decide (c = "/"%char)).

Fixpoint all_chars (p : ascii → bool) s : bool :=
  match s with
  | "" => true
  | String c rest => p c && all_chars p rest
  end.

Lemma plain_char_spec c :
  plain_char c = true →
  is_quote c = false ∧ c ≠ "("%char ∧ c ≠ ")"%char ∧ c ≠ "-"%char ∧ c ≠ "/"%char.
Proof.
  unfold plain_char. rewrite !andb_true_iff, !negb_true_iff, !bool_decide_eq_false. tauto.
Qed.

Lemma all_chars_append p s1 s2 :
  all_chars p (s1 +:+ s2) = all_chars p s1 && all_chars p s2.
Proof.
  induction s1 as [|c s1 IH]; [done|]. rewrite append_cons. simpl.
  by rewrite IH, andb_assoc.
Qed.

Lemma scan_char_plain queries cur c :
  plain_char c = true →
  scan_char (mkScan queries cur false None 0) c
  = if decide (c = ";"%char)
    then mkScan (flush queries (PyStr.snoc cur c)) "" false None 0
    else mkScan queries (PyStr.snoc cur c) false None 0.
Proof.
  intros (Hq & Ho & Hc & _)%plain_char_spec. unfold scan_char. cbn [in_quotes paren_level
    Splitter.queries current_query quote_char negb]. rewrite Hq.
  rewrite !bool_decide_eq_false_2 by done. cbn [andb].
  case_decide as Hsemi.
  - by rewrite !bool_decide_eq_true_2 by done.
  - by rewrite bool_decide_eq_false_2 by done.
Qed.

Lemma boundary_char_plain c next :
  plain_char c = true →
  boundary_char (mkBoundary 0 0 false false) c next = mkBoundary 0 0 false false.
Proof.
  intros (Hq & Ho & Hc & Hd & Hs)%plain_char_spec. unfold boundary_char.
  cbn [in_comment in_block_comment]. rewrite Hq.
  rewrite (bool_decide_eq_false_2 (c = "-"%char)), (bool_decide_eq_false_2 (c = "/"%char))
    by done.
  cbn [andb]. by rewrite !decide_False by done.
Qed.

Lemma boundary_plain s :
  all_chars plain_char s = true → _is_valid_query_boundary s = true.
Proof.
  intros Hs. unfold _is_valid_query_boundary.
  assert (boundary_scan (mkBoundary 0 0 false false) s = mkBoundary 0 0 false false) as ->; [|done].
  induction s as [|c s IH]; [done|]. simpl in Hs. apply andb_true_iff in Hs as [Hc Hs].
  cbn [boundary_scan]. rewrite boundary_char_plain by done. by apply IH.
Qed.

Lemma strip_comments_plain s : all_chars plain_char s = true → strip_comments s = s.
Proof.
  intros Hs. apply strip_comments_id; intros pre post ->;
    rewrite all_chars_append in Hs; apply andb_true_iff in Hs as [_ Hs];
    by simpl in Hs.
Qed.

Lemma find_append_None c cur rest :
  PyStr.find c cur = None →
  PyStr.find c (cur +:+ String c rest) = Some (String.length cur)
  ∧ PyStr.take (String.length cur + 1) (cur +:+ String c rest) = PyStr.snoc cur c
  ∧ PyStr.drop (String.length cur + 1) (cur +:+ String c rest) = rest.
Proof.
  rewrite Nat.add_1_r. unfold PyStr.take, PyStr.snoc.
  induction cur as [|c' cur IH]; intros Hfind.
  - simpl. rewrite decide_True by done. split_and!; [done| |done]. by destruct rest.
  - simpl in Hfind. case_decide as Hc; [done|].
    destruct (PyStr.find c cur) eqn:Hcur; [done|].
    destruct (IH eq_refl) as (Hf & Ht & Hd).
    rewrite !append_cons. simpl in *. rewrite decide_False by done.
    by rewrite Hf, Ht, Hd.
Qed.

Lemma find_snoc_None c cur c' :
  PyStr.find c cur = None → c' ≠ c → PyStr.find c (PyStr.snoc cur c') = None.
Proof.
  unfold PyStr.snoc. intros Hfind Hne. induction cur as [|c0 cur IH].
  - simpl. by rewrite decide_False.
  - simpl in Hfind. case_decide; [done|].
    destruct (PyStr.find c cur); [done|].
    rewrite append_cons. simpl. rewrite decide_False by done. by rewrite IH.
Qed.

(** On plain text the character scan does what draining the text does. *)
Lemma scan_drain_all s cur queries :
  all_chars plain_char s = true → all_chars plain_char cur = true →
  PyStr.find ";" cur = None →
  scan (mkScan queries cur false None 0) s
  = mkScan (drain_all (cur +:+ s) queries).2 (drain_all (cur +:+ s) queries).1 false None 0.
Proof.
  revert cur queries. induction s as [|c s IH]; intros cur queries Hs Hcur Hfind.
  - rewrite append_nil_r, drain_all_unfold, Hfind. done.
  - simpl in Hs. apply andb_true_iff in Hs as [Hc Hs].
    cbn [scan]. rewrite scan_char_plain by done. case_decide as Hsemi.
    + subst c. rewrite (IH "" _ Hs eq_refl eq_refl).
      rewrite (drain_all_unfold (cur +:+ String ";" s)).
      destruct (find_append_None ";" cur s Hfind) as (-> & -> & ->).
      unfold keep_valid. rewrite boundary_plain; [done|].
      unfold PyStr.snoc. rewrite all_chars_append, Hcur. done.
    + rewrite IH; [by rewrite snoc_append|done| |by apply find_snoc_None].
      unfold PyStr.snoc. rewrite all_chars_append, Hcur. simpl. by rewrite Hc.
Qed.

End PlainFacts.

(** X19.  On a batch without quotes, parentheses, dashes and slashes the
    streaming splitter and the character scan return the same statements. *)
Theorem splitters_agree_on_plain_text (sql_batch : string) :
  all_chars plain_char sql_batch = true →
  Splitter._stream_split_queries sql_batch = Splitter._split_with_regex sql_batch
  ∧ Splitter._process_large_batch sql_batch = Splitter._split_with_regex sql_batch.
Proof.
  intros Hplain.
  assert (Splitter._stream_split_queries sql_batch = Splitter._split_with_regex sql_batch)
    as Heq.
  { unfold Splitter._stream_split_queries, Splitter._split_with_regex.
    rewrite stream_split_spec by (unfold Splitter.chunk_size; lia).
    rewrite strip_comments_plain by done.
    unfold Splitter.scan_start. by rewrite (scan_drain_all sql_batch "" []). }
  split; [done|]. unfold Splitter._process_large_batch. by case_decide.
Qed.

Lemma splitters_agree_on_plain_text_witness :
  Splitter._stream_split_queries "SELECT a FROM t; SELECT b FROM u WHERE c = 1;"
  = Splitter._split_with_regex "SELECT a FROM t; SELECT b FROM u WHERE c = 1;".
Proof.
  apply (splitters_agree_on_plain_text "SELECT a FROM t; SELECT b FROM u WHERE c = 1;").
  vm_compute. reflexivity.
Defined.

(** ** What the character scan keeps *)

Section KeepFacts.

Import Splitter.

Implicit Types (s cur : string) (c : ascii) (queries : list string) (st : ScanState).

(** The characters of a string that are not white space. *)
Fixpoint nonspace s : string :=
  match s with
  | "" => ""
  | String c rest => if PyStr.isspace c then nonspace rest else String c (nonspace rest)
  end.

Lemma nonspace_append s1 s2 : nonspace (s1 +:+ s2) = nonspace s1 +:+ nonspace s2.
Proof.
  induction s1 as [|c s1 IH]; [done|]. rewrite append_cons. simpl.
  destruct (PyStr.isspace c); [done|]. by rewrite append_cons, IH.
Qed.

Lemma nonspace_rev s : nonspace (String.rev s) = String.rev (nonspace s).
Proof.
  induction s as [|c s IH]; [done|]. rewrite rev_cons, nonspace_append, IH. simpl.
  destruct (PyStr.isspace c); [apply append_nil_r|by rewrite rev_cons].
Qed.

Lemma nonspace_lstrip s : nonspace (PyStr.lstrip s) = nonspace s.
Proof.
  induction s as [|c s IH]; [done|]. simpl.
  destruct (PyStr.isspace c) eqn:Hc; [done|]. simpl. by rewrite Hc.
Qed.

Lemma nonspace_strip s : nonspace (PyStr.strip s) = nonspace s.
Proof.
  unfold PyStr.strip, PyStr.rstrip.
  by rewrite nonspace_rev, nonspace_lstrip, nonspace_rev, rev_involutive, nonspace_lstrip.
Qed.

Lemma concat_strings_snoc (l : list string) s :
  concat_strings (l ++ [s]) = concat_strings l +:+ s.
Proof.
  induction l as [|x l IH]; simpl; [apply append_nil_r|].
  fold (concat_strings (l ++ [s])). fold (concat_strings l).
  by rewrite IH, append_assoc.
Qed.

Lemma flush_nonspace queries cur :
  nonspace (concat_strings (flush queries cur))
  = nonspace (concat_strings queries) +:+ nonspace cur.
Proof.
  unfold flush. destruct (PyStr.nonblank cur) eqn:Hcur.
  - by rewrite concat_strings_snoc, nonspace_append, nonspace_strip.
  - assert (PyStr.strip cur = "") as Hstrip
      by (unfold PyStr.nonblank in Hcur; by destruct (PyStr.strip cur)).
    by rewrite <-(nonspace_strip cur), Hstrip, append_nil_r.
Qed.

(** The non-blank characters read so far: those of the statements already
    ended, then those of the statement being read. *)
Definition kept st : string :=
  nonspace (concat_strings (queries st)) +:+ nonspace (current_query st).

Lemma scan_char_kept st c : kept (scan_char st c) = kept st +:+ nonspace (String c "").
Proof.
  unfold kept, scan_char.
  repeat (case_match; cbn [queries current_query]);
    unfold PyStr.snoc;
    rewrite ?flush_nonspace, ?nonspace_append, ?append_nil_r, ?append_assoc; done.
Qed.

Lemma scan_kept st s : kept (scan st s) = kept st +:+ nonspace s.
Proof.
  revert st. induction s as [|c s IH]; intros st; cbn [scan].
  - by rewrite append_nil_r.
  - rewrite IH, scan_char_kept, append_assoc, <-nonspace_append. done.
Qed.

End KeepFacts.

(** X16.  The character scan only drops white space: the statements it
    returns, put end to end, have the non-blank characters of the batch
    without its comments, in the same order. *)
Theorem split_with_regex_keeps_text (sql_batch : string) :
  nonspace (concat_strings (Splitter._split_with_regex sql_batch))
  = nonspace (Splitter.strip_comments sql_batch).
Proof.
  unfold Splitter._split_with_regex, Splitter.finish.
  rewrite flush_nonspace.
  change (nonspace (concat_strings (Splitter.queries ?st)) +:+ nonspace (Splitter.current_query ?st))
    with (kept st).
  by rewrite scan_kept.
Qed.

(** X22.  When a node that is in no dependency set depends on another node,
    the order has it before that node, and the cycle warnings are logged:
    the table to create last comes first. *)
Theorem dependent_before_dependency (graph : Graph) (dependent dependency : string) :
  dependent ∈ nodes graph →
  dependency ∈ nodes graph →
  dependency ∈ graph_get graph dependent →
  (∀ m, m ∈ nodes graph → dependent ∉ graph_get graph m) →
  ∃ order log l1 l2 l3,
    _topological_sort graph = Some (order, log)
    ∧ order = l1 ++ dependent :: l2 ++ dependency :: l3
    ∧ log ≠ [].
Proof.
  intros Hdependent Hdependency Hedge Hfree. rewrite sort_spec.
  assert (dependent ∈ roots graph) as Hin1.
  { rewrite roots_free. apply list_elem_of_filter. split; [|done]. by apply Forall_forall. }
  assert (dependency ∈ filter (λ n, Exists (λ m, n ∈ graph_get graph m) (nodes graph))
                               (nodes graph)) as Hin2.
  { apply list_elem_of_filter. split; [|done]. apply Exists_exists. eauto. }
  rewrite <-cycles_held in Hin2.
  case_decide as Hlen.
  - apply list_elem_of_split in Hin1 as (f1 & f2 & Hf).
    apply list_elem_of_split in Hin2 as (h1 & h2 & Hh).
    eexists _, _, f1, (f2 ++ h1), h2. split; [done|]. split; [|done].
    rewrite Hh, Hf. by rewrite <-!app_assoc.
  - exfalso. apply list_elem_of_filter in Hin2 as [Hnot _]. apply Hnot.
    unfold roots, Sorter.initial_queue in *. rewrite filter_all_length; [done|].
    rewrite Hlen. unfold nodes. by rewrite length_fmap.
Qed.

Lemma dependent_before_dependency_witness :
  ∃ order log l1 l2 l3,
    _topological_sort [("b", {["a"]}); ("c", {["b"]}); ("a", ∅)] = Some (order, log)
    ∧ order = l1 ++ "c" :: l2 ++ "b" :: l3
    ∧ log ≠ [].
Proof.
  apply (dependent_before_dependency [("b", {["a"]}); ("c", {["b"]}); ("a", ∅)] "c" "b").
  - apply (bool_decide_unpack _). vm_compute. exact I.
  - apply (bool_decide_unpack _). vm_compute. exact I.
  - apply (bool_decide_unpack _). vm_compute. exact I.
  - apply Forall_forall. apply (bool_decide_unpack _). vm_compute. exact I.
Defined.

(** ** CREATE statements *)

Section CreateFacts.

Implicit Types (s w rest : string) (c : ascii).

Lemma isspace_lower_char c : PyStr.isspace (PyStr.lower_char c) = PyStr.isspace c.
Proof. by destruct c as [[] [] [] [] [] [] [] []]. Qed.

Lemma after_word_Some w s rest :
  PyStr.after_word w s = Some rest → ∃ w', s = w' +:+ rest ∧ PyStr.lower w' = w.
Proof.
  revert s. induction w as [|cw w IH]; intros s; simpl.
  - intros [= <-]. by exists "".
  - destruct s as [|c s]; [done|]. case_decide as Hc; [|done].
    intros (w' & -> & <-)%IH. exists (String c w'). split; [done|]. simpl. by rewrite Hc.
Qed.

Lemma after_word_append w' rest :
  PyStr.after_word (PyStr.lower w') (w' +:+ rest) = Some rest.
Proof.
  induction w' as [|c w' IH]; [by destruct rest|].
  rewrite append_cons. simpl. by rewrite decide_True.
Qed.

Lemma lstrip_split s :
  ∃ ws, s = ws +:+ PyStr.lstrip s ∧ all_chars PyStr.isspace ws = true.
Proof.
  induction s as [|c s (ws & Hs & Hws)]; [by exists ""|]. simpl.
  destruct (PyStr.isspace c) eqn:Hc; [|by exists ""].
  exists (String c ws). split.
  - rewrite append_cons. by f_equal.
  - simpl. by rewrite Hc.
Qed.

Lemma lstrip_spaces ws s :
  all_chars PyStr.isspace ws = true → PyStr.lstrip (ws +:+ s) = PyStr.lstrip s.
Proof.
  induction ws as [|c ws IH]; [done|]. intros Hall.
  simpl in Hall. apply andb_true_iff in Hall as [Hc Hws].
  rewrite append_cons. simpl. rewrite Hc. by apply IH.
Qed.

End CreateFacts.

(** X21.  A statement counts as a CREATE statement exactly when, after any
    leading white space, it has the word CREATE in any mix of upper and lower
    case, followed by a white-space character. *)
Theorem is_create_statement_spec (query : string) :
  Splitter.is_create_statement query = true
  ↔ ∃ ws w c rest,
      query = ws +:+ w +:+ String c rest
      ∧ all_chars PyStr.isspace ws = true
      ∧ PyStr.lower w = "create"
      ∧ PyStr.isspace c = true.
Proof.
  unfold Splitter.is_create_statement. split.
  - destruct (PyStr.after_word "create" (PyStr.lstrip query)) as [[|c rest]|] eqn:Hword;
      [done| |done].
    intros Hc. apply after_word_Some in Hword as (w & Hq & Hw).
    destruct (lstrip_split query) as (ws & Hquery & Hws).
    exists ws, w, c, rest. by rewrite <-Hq.
  - intros (ws & w & c & rest & -> & Hws & Hw & Hc).
    rewrite lstrip_spaces by done.
    assert (PyStr.lstrip (w +:+ String c rest) = w +:+ String c rest) as ->.
    { destruct w as [|c0 w]; [done|]. rewrite append_cons. simpl.
      rewrite <-isspace_lower_char. simpl in Hw. injection Hw as -> _. done. }
    by rewrite <-Hw, after_word_append.
Qed.
